(** * discount-code-exporter: the command-line driver (src/cli.js)

    A shallow embedding of the CLI script of the discount code exporter and
    the properties of its start-up sequence: option table and coercions,
    credential resolution, template header resolution, the promise chain that
    joins both and starts the export, and the error handler.

    The script is event driven.  Collaborators that live outside the file
    (yargs, fs, readline, the credential exchange, the export engine of
    ./main) are represented by what the script observes of them: the values
    they return and the events they deliver, in the order they are delivered.

    - The argument parser is represented by the option table of the script
      and by the documented order of the parser: defaults, then coercions,
      then validation of required options and choices.
    - The readline interface is represented by the events it emits
      (['line'], ['error'], ['close']); no assumption is made on their order
      or number, so that lines emitted after [rl.close()] are covered.
    - A promise is its state; settling a settled promise does nothing.
      [Promise.all] is rejected by the first rejection that takes place and
      fulfilled when both promises are.
    - Option values are absent, booleans, integers or strings; a rejection
      reason is an error or an array of errors.  Numbers with a fraction,
      infinities and NaN are outside the embedding.
    - A string is a sequence of 8-bit characters; JavaScript strings are
      sequences of 16-bit code units.  The two agree on text in ASCII, and
      on their split at a separator; a property that depends on the
      difference says so.
    - The callbacks of a promise run in the step that settles it.  Events
      that the environment delivers between the settlement and the
      microtask that runs the callbacks are delivered after them.
    - Lines 137 to 140 choose the log stream before anything is started and
      may throw; an ['error'] of the log stream has no listener and ends the
      process.  [start], [step] and [exec] describe the promise chain of
      lines 143 to 173 on its own, [script] the file as a whole, from line
      137 on. *)

From stdpp Require Import base strings list gmap pretty.

Open Scope string_scope.
Open Scope list_scope.

(** ** JavaScript values handled by the script *)

(** Option values as the argument parser hands them over: absent, flag,
    number or text.  A number is an integer; [ToString] is exact for
    integers below 2^53 in absolute value. *)
Inductive jsval :=
| VUndefined
| VBool (b : bool)
| VNum (n : Z)
| VStr (s : string).

Global Instance jsval_eq_dec : EqDecision jsval.
Proof. solve_decision. Defined.

(** ToBoolean: the test performed by [if (v)] and [!v]. *)
Definition truthy (v : jsval) : bool :=
  match v with
  | VUndefined => false
  | VBool b => b
  | VNum n => negb (n =? 0)%Z
  | VStr s => negb (String.eqb s "")
  end.

(** ToString, as applied by [String(arg)] and by [split] to its separator. *)
Definition ToString (v : jsval) : string :=
  match v with
  | VUndefined => "undefined"
  | VBool true => "true"
  | VBool false => "false"
  | VNum n => pretty n
  | VStr s => s
  end.

(** An error object: its [name] ([Error], [TypeError], ...) and its
    message. *)
Record Error := MkError { name : string; message : string }.

(** [new Error(message)] *)
Definition mkError (message : string) : Error :=
  {| name := "Error"; message := message |}.

Global Instance Error_eq_dec : EqDecision Error.
Proof. solve_decision. Defined.

(** A rejection reason or thrown value: one error, or an array of them
    (the case [Array.isArray(errors)] of the error handler). *)
Inductive reason :=
| One (e : Error)
| Many (es : list Error).

Global Instance reason_eq_dec : EqDecision reason.
Proof. solve_decision. Defined.

(** A plain object with string keys. *)
Abbreviation jsobject := (gmap string jsval).

(** ** String.prototype.split and Array.prototype.join *)

Module JsString.

(** Splitting on a non-empty separator.  [skip] counts the characters of a
    separator occurrence that remain to be passed over; the head of the
    result is the token under construction. *)
Fixpoint split_scan (sep : string) (skip : nat) (s : string) : list string :=
  match s with
  | EmptyString => [""]
  | String c s' =>
      match skip with
      | S k => split_scan sep k s'
      | O =>
          if String.prefix sep s
          then "" :: split_scan sep (String.length sep - 1) s'
          else match split_scan sep 0 s' with
               | tok :: toks => String c tok :: toks
               | [] => [String c ""]
               end
      end
  end.

(** Splitting on the empty separator yields the characters: one string per
    8-bit character here, one per 16-bit code unit in JavaScript.  The two
    agree on ASCII text. *)
Fixpoint chars (s : string) : list string :=
  match s with
  | EmptyString => []
  | String c s' => String c "" :: chars s'
  end.

(** [s.split(sep)] for a string separator. *)
Definition split (s sep : string) : list string :=
  match sep with
  | EmptyString => chars s
  | _ => split_scan sep 0 s
  end.

(** [s.split(v)] for an arbitrary separator value: [undefined] gives the
    whole string, anything else is converted with ToString. *)
Definition split_val (s : string) (v : jsval) : list string :=
  match v with
  | VUndefined => [s]
  | _ => split s (ToString v)
  end.

(** [xs.join(sep)] on an array of strings. *)
Definition join (sep : string) (xs : list string) : string :=
  String.concat sep xs.

(** [drop n s]: [s] without its first [n] characters. *)
Fixpoint drop (n : nat) (s : string) : string :=
  match n, s with
  | O, _ => s
  | S k, EmptyString => ""
  | S k, String _ s' => drop k s'
  end.

End JsString.

(** ** Promises *)

Inductive promise (A : Type) :=
| Pending
| Fulfilled (v : A)
| Rejected (r : reason).

Arguments Pending {A}.
Arguments Fulfilled {A} v.
Arguments Rejected {A} r.

(** [resolve] and [reject] only act on a promise that is still pending. *)
Definition settle {A} (p new : promise A) : promise A :=
  match p with
  | Pending => new
  | _ => p
  end.

Definition is_pending {A} (p : promise A) : bool :=
  match p with Pending => true | _ => false end.

Definition is_rejected {A} (p : promise A) : bool :=
  match p with Rejected _ => true | _ => false end.

(** ** Streams *)

(** [fs.createReadStream(path)] *)
Inductive ReadStream := FileReadStream (path : string).

(** [process.stdout], or [fs.createWriteStream(path)] *)
Inductive Sink :=
| Stdout
| FileWriteStream (path : jsval).

Global Instance Sink_eq_dec : EqDecision Sink.
Proof. solve_decision. Defined.

(** What the readline interface emits. *)
Inductive RlEvent :=
| RlLine (line : string)
| RlError (e : Error)
| RlClosed.

(** ** The option table (lines 13-96) *)

Module Key.
Inductive t :=
| template | language | output | apiUrl | authUrl | delimiter
| multiValueDelimiter | accessToken | projectKey | where_ | exportFormat
| batchSize | logLevel | logFile.

Global Instance eq_dec : EqDecision t.
Proof. solve_decision. Defined.
End Key.

Record OptionSpec := mkOption {
  default : jsval;                    (* [VUndefined]: no default *)
  choices : option (list jsval);
  demand : bool
}.

Definition plain (d : jsval) : OptionSpec :=
  {| default := d; choices := None; demand := false |}.

Definition options (k : Key.t) : OptionSpec :=
  match k with
  | Key.template => plain VUndefined
  | Key.language => plain (VStr "en")
  | Key.output => plain (VStr "stdout")
  | Key.apiUrl => plain (VStr "https://api.europe-west1.gcp.commercetools.com")
  | Key.authUrl => plain (VStr "https://auth.europe-west1.gcp.commercetools.com")
  | Key.delimiter => plain (VStr ",")
  | Key.multiValueDelimiter => plain (VStr ";")
  | Key.accessToken => plain VUndefined
  | Key.projectKey =>
      {| default := VUndefined; choices := None; demand := true |}
  | Key.where_ => plain VUndefined
  | Key.exportFormat =>
      {| default := VStr "json";
         choices := Some [VStr "csv"; VStr "json"];
         demand := false |}
  | Key.batchSize => plain (VNum 500)
  | Key.logLevel => plain (VStr "info")
  | Key.logFile => plain (VStr "discount-code-export.log")
  end.

Definition all_keys : list Key.t :=
  [ Key.template; Key.language; Key.output; Key.apiUrl; Key.authUrl;
    Key.delimiter; Key.multiValueDelimiter; Key.accessToken; Key.projectKey;
    Key.where_; Key.exportFormat; Key.batchSize; Key.logLevel; Key.logFile ].

(** The parsed [args] object, after defaults and coercions. *)
Module Args.
Record t := mk {
  template : option ReadStream;       (* [None]: undefined *)
  language : jsval;
  output : Sink;
  apiUrl : jsval;
  authUrl : jsval;
  delimiter : jsval;
  multiValueDelimiter : jsval;
  accessToken : jsval;
  projectKey : jsval;
  where_ : jsval;
  exportFormat : jsval;
  batchSize : jsval;
  logLevel : jsval;
  logFile : jsval
}.
End Args.

(** The objects built at lines 147-163. *)
Module ApiConfig.
Record t := mk {
  host : jsval;
  apiUrl : jsval;
  projectKey : jsval;
  credentials : jsobject
}.
End ApiConfig.

Module Options.
Record t := mk {
  apiConfig : ApiConfig.t;
  accessToken : jsval;
  batchSize : jsval;
  delimiter : jsval;
  exportFormat : jsval;
  language : jsval;
  multiValueDelimiter : jsval;
  predicate : jsval;
  fields : option (list string)       (* [None]: null *)
}.
End Options.

(** ** Collaborators outside the file *)

(** [existsSync] is the file system test of the template coercion;
    [construct] tells whether [new DiscountCodeExport(options, logger)]
    throws; [render] is the PrettyError renderer. *)
Record Env := mkEnv {
  existsSync : jsval -> bool;
  construct : Options.t -> option reason;
  render : Error -> string
}.

(** Calls the script makes to its collaborators, in order. *)
Inductive Call :=
| GetCredentials (projectKey : jsval)
| CreateInterface (input : ReadStream)
| RlClose
| NewDiscountCodeExport (opts : Options.t)
| Run (output : Sink).

(** ** Argument parsing: defaults, coercions, validation *)

(** What was typed on the command line, per option; [VUndefined] when the
    option was not given. *)
Definition Supplied := Key.t -> jsval.

Definition value (given : Supplied) (k : Key.t) : jsval :=
  match given k with
  | VUndefined => default (options k)
  | v => v
  end.

Inductive ParseError :=
| CoercionFailed (k : Key.t) (e : Error)
| MissingRequired (k : Key.t)
| InvalidChoice (k : Key.t) (given : jsval).

(** Lines 30-34. *)
Definition coerce_template (E : Env) (arg : jsval) : Error + ReadStream :=
  if existsSync E arg then inr (FileReadStream (ToString arg))
  else inl (mkError "Input file cannot be reached or does not exist").

(** Lines 40-44. *)
Definition coerce_output (arg : jsval) : Sink :=
  if decide (arg <> VStr "stdout") then FileWriteStream (VStr (ToString arg))
  else Stdout.

(** Lines 94-96: stores the level in npmlog and returns nothing. *)
Definition coerce_logLevel (arg : jsval) : jsval * jsval :=
  (VUndefined, arg).

Definition check_demand (given : Supplied) (k : Key.t) : option ParseError :=
  if demand (options k) && bool_decide (value given k = VUndefined)
  then Some (MissingRequired k) else None.

Definition check_choices (given : Supplied) (k : Key.t) : option ParseError :=
  match choices (options k) with
  | Some allowed =>
      if bool_decide (value given k = VUndefined) then None
      else if bool_decide (value given k ∈ allowed) then None
      else Some (InvalidChoice k (value given k))
  | None => None
  end.

Fixpoint first_error (checks : list (option ParseError)) : option ParseError :=
  match checks with
  | [] => None
  | Some e :: _ => Some e
  | None :: rest => first_error rest
  end.

Definition validate (given : Supplied) : option ParseError :=
  first_error (map (check_demand given) all_keys
               ++ map (check_choices given) all_keys).

(** The [.argv] getter: coercions run while parsing, validation afterwards.
    The result is the [args] object and the level stored in npmlog. *)
Definition argv (E : Env) (given : Supplied) : ParseError + (Args.t * jsval) :=
  let tpl :=
    match value given Key.template with
    | VUndefined => inr None
    | arg => match coerce_template E arg with
             | inl e => inl e
             | inr s => inr (Some s)
             end
    end in
  match tpl with
  | inl e => inl (CoercionFailed Key.template e)
  | inr template =>
      match validate given with
      | Some e => inl e
      | None =>
          let '(logLevel, level) := coerce_logLevel (value given Key.logLevel) in
          inr ({| Args.template := template;
                  Args.language := value given Key.language;
                  Args.output := coerce_output (value given Key.output);
                  Args.apiUrl := value given Key.apiUrl;
                  Args.authUrl := value given Key.authUrl;
                  Args.delimiter := value given Key.delimiter;
                  Args.multiValueDelimiter := value given Key.multiValueDelimiter;
                  Args.accessToken := value given Key.accessToken;
                  Args.projectKey := value given Key.projectKey;
                  Args.where_ := value given Key.where_;
                  Args.exportFormat := value given Key.exportFormat;
                  Args.batchSize := value given Key.batchSize;
                  Args.logLevel := logLevel;
                  Args.logFile := value given Key.logFile |}, level)
      end
  end.

(** ** Error reporting (lines 98-113) *)

(** The text [logError] hands to [process.stderr.write], one write per
    error, without a newline.  [error.message || error] falls back to the
    error object itself, which, its message being empty, converts to its
    name. *)
Definition logError (E : Env) (level : jsval) (error : Error) : string :=
  if decide (level = VStr "verbose") then "ERR: " +:+ render E error
  else "ERR: " +:+ (if truthy (VStr (message error)) then message error
                    else name error).

Definition errors_of (errors : reason) : list Error :=
  match errors with
  | One e => [e]
  | Many es => es
  end.

(** ** Field resolution (lines 117-130) *)

Abbreviation fieldspec := (option (list string)).

(** The executor: without a template the promise is resolved with [null] at
    once; otherwise a readline interface is opened on the template. *)
Definition getFields_open (_args : Args.t) : promise fieldspec * list Call :=
  match Args.template _args with
  | None => (Fulfilled None, [])
  | Some input => (Pending, [CreateInterface input])
  end.

(** The listeners registered on the interface.  There is one for ['error']
    and one for ['line']; nothing listens to ['close']. *)
Definition getFields_on (_args : Args.t) (ev : RlEvent) (p : promise fieldspec)
  : promise fieldspec * list Call :=
  match ev with
  | RlError e => (settle p (Rejected (One e)), [])
  | RlLine line =>
      (settle p (Fulfilled (Some (JsString.split_val line (Args.delimiter _args)))),
       [RlClose])
  | RlClosed => (p, [])
  end.

Fixpoint getFields_run (_args : Args.t) (evs : list RlEvent)
  (st : promise fieldspec * list Call) : promise fieldspec * list Call :=
  match evs with
  | [] => st
  | ev :: rest =>
      let '(p, cs) := getFields_on _args ev (fst st) in
      getFields_run _args rest (p, snd st ++ cs)
  end.

(** [getFields(_args)] observed after the interface has emitted [evs]: the
    state of the returned promise and the calls made on the way.  Without a
    template there is no interface and no event is received. *)
Definition getFields (_args : Args.t) (evs : list RlEvent)
  : promise fieldspec * list Call :=
  match Args.template _args with
  | None => getFields_open _args
  | Some _ => getFields_run _args evs (getFields_open _args)
  end.

(** ** Credential resolution (lines 132-135) *)

(** With an access token: a promise already resolved with the empty object.
    Otherwise: the promise returned by [getCredentials(projectKey)], still
    pending when it is handed back. *)
Definition resolveCredentials (_args : Args.t) : promise jsobject * list Call :=
  if truthy (Args.accessToken _args) then (Fulfilled ∅, [])
  else (Pending, [GetCredentials (Args.projectKey _args)]).

(** ** The run (lines 137-173) *)

(** State of [Promise.all(...).then(...).then(...).catch(errorHandler)]. *)
Inductive Chain :=
| Joining                 (* Promise.all has not settled *)
| Running                 (* the export was built, [run] is pending *)
| Completed               (* [run] fulfilled *)
| Caught (r : reason).    (* the rejection reached [catch] *)

(** Who invoked the error handler. *)
Inductive Origin := FromCatch | FromOutput.

Global Instance Origin_eq_dec : EqDecision Origin.
Proof. solve_decision. Defined.

Record World := mkWorld {
  credentials : promise jsobject;
  fields : promise fieldspec;
  all : promise (jsobject * fieldspec);
  chain : Chain;
  calls : list Call;
  stderr : list string;
  exitCode : option Z;
  handled : list (Origin * reason);       (* invocations of errorHandler *)
  npmlog_level : jsval
}.

Definition set_credentials (p : promise jsobject) (w : World) : World :=
  mkWorld p (fields w) (all w) (chain w) (calls w) (stderr w) (exitCode w)
          (handled w) (npmlog_level w).

Definition set_fields (p : promise fieldspec) (w : World) : World :=
  mkWorld (credentials w) p (all w) (chain w) (calls w) (stderr w) (exitCode w)
          (handled w) (npmlog_level w).

Definition set_all (p : promise (jsobject * fieldspec)) (w : World) : World :=
  mkWorld (credentials w) (fields w) p (chain w) (calls w) (stderr w)
          (exitCode w) (handled w) (npmlog_level w).

Definition set_chain (c : Chain) (w : World) : World :=
  mkWorld (credentials w) (fields w) (all w) c (calls w) (stderr w)
          (exitCode w) (handled w) (npmlog_level w).

Definition add_calls (cs : list Call) (w : World) : World :=
  mkWorld (credentials w) (fields w) (all w) (chain w) (calls w ++ cs)
          (stderr w) (exitCode w) (handled w) (npmlog_level w).

(** Lines 108-113. *)
Definition errorHandler (E : Env) (from : Origin) (errors : reason) (w : World)
  : World :=
  mkWorld (credentials w) (fields w) (all w) (chain w) (calls w)
          (stderr w ++ map (logError E (npmlog_level w)) (errors_of errors))
          (Some 1%Z)
          (handled w ++ [(from, errors)])
          (npmlog_level w).

(** Lines 147-163. *)
Definition constructorOptions (args : Args.t) (credentials : jsobject)
  (fields : fieldspec) : Options.t :=
  {| Options.apiConfig :=
       {| ApiConfig.host := Args.authUrl args;
          ApiConfig.apiUrl := Args.apiUrl args;
          ApiConfig.projectKey := Args.projectKey args;
          ApiConfig.credentials := credentials |};
     Options.accessToken := Args.accessToken args;
     Options.batchSize := Args.batchSize args;
     Options.delimiter := Args.delimiter args;
     Options.exportFormat := Args.exportFormat args;
     Options.language := Args.language args;
     Options.multiValueDelimiter := Args.multiValueDelimiter args;
     Options.predicate := Args.where_ args;
     Options.fields := fields |}.

(** [Promise.all]: the reaction to one element settling. *)
Definition all_after_credentials (all : promise (jsobject * fieldspec))
  (p : promise jsobject) (f : promise fieldspec) : promise (jsobject * fieldspec) :=
  match p with
  | Pending => all
  | Rejected r => settle all (Rejected r)
  | Fulfilled c =>
      match f with
      | Fulfilled x => settle all (Fulfilled (c, x))
      | _ => all
      end
  end.

Definition all_after_fields (all : promise (jsobject * fieldspec))
  (c : promise jsobject) (p : promise fieldspec) : promise (jsobject * fieldspec) :=
  match p with
  | Pending => all
  | Rejected r => settle all (Rejected r)
  | Fulfilled x =>
      match c with
      | Fulfilled y => settle all (Fulfilled (y, x))
      | _ => all
      end
  end.

(** The two [then] callbacks and the [catch], run when [Promise.all] has
    settled and the chain has not moved yet. *)
Definition react (E : Env) (args : Args.t) (w : World) : World :=
  match chain w with
  | Joining =>
      match all w with
      | Pending => w
      | Rejected r => set_chain (Caught r) (errorHandler E FromCatch r w)
      | Fulfilled (credentials, fields) =>
          let opts := constructorOptions args credentials fields in
          let w1 := add_calls [NewDiscountCodeExport opts] w in
          match construct E opts with
          | Some r => set_chain (Caught r) (errorHandler E FromCatch r w1)
          | None => set_chain Running (add_calls [Run (Args.output args)] w1)
          end
      end
  | _ => w
  end.

(** What the environment delivers to the script.  An event that has no
    addressee is ignored: a settlement of the exchange when it was not
    invoked or has settled, a readline event when no interface was opened, a
    settlement of [run] when [run] is not pending. *)
Inductive Event :=
| CredentialsSettled (r : reason + jsobject)   (* the getCredentials promise *)
| Rl (ev : RlEvent)                            (* the readline interface *)
| RunSettled (r : option reason)               (* the promise of [run] *)
| OutputError (e : Error).                     (* ['error'] on [args.output] *)

Definition step (E : Env) (args : Args.t) (w : World) (ev : Event) : World :=
  match ev with
  | CredentialsSettled r =>
      match credentials w with
      | Pending =>
          let p := match r with inl e => Rejected e | inr c => Fulfilled c end in
          react E args
            (set_all (all_after_credentials (all w) p (fields w))
                     (set_credentials p w))
      | _ => w
      end
  | Rl ev =>
      match Args.template args with
      | None => w
      | Some _ =>
          let '(p, cs) := getFields_on args ev (fields w) in
          let w1 := add_calls cs (set_fields p w) in
          if is_pending (fields w)
          then react E args
                 (set_all (all_after_fields (all w) (credentials w) p) w1)
          else w1
      end
  | RunSettled r =>
      match chain w with
      | Running =>
          match r with
          | None => set_chain Completed w
          | Some e => set_chain (Caught e) (errorHandler E FromCatch e w)
          end
      | _ => w
      end
  | OutputError e => errorHandler E FromOutput (One e) w
  end.

(** Lines 143-145, entered once lines 137-140 have set the log stream (see
    [log_stream] and [script] below): the error listener is registered on
    the output, both resolutions are started and handed to [Promise.all]. *)
Definition start (E : Env) (args : Args.t) (level : jsval) : World :=
  let '(cp, calls1) := resolveCredentials args in
  let '(fp, calls2) := getFields_open args in
  react E args
    {| credentials := cp; fields := fp;
       all := all_after_fields Pending cp fp;
       chain := Joining; calls := calls1 ++ calls2; stderr := [];
       exitCode := None; handled := [];
       npmlog_level := level |}.

Definition exec (E : Env) (args : Args.t) (level : jsval) (evs : list Event)
  : World :=
  fold_left (step E args) evs (start E args level).

(** The whole script: a parse failure ends the process inside the argument
    parser, before line 98 is reached. *)
Inductive Outcome :=
| ParseFailed (e : ParseError)
| Ran (w : World).

Definition main (E : Env) (given : Supplied) (evs : list Event) : Outcome :=
  match argv E given with
  | inl e => ParseFailed e
  | inr (args, level) => Ran (exec E args level evs)
  end.

(** Projections of the call log. *)
Definition export_calls (cs : list Call) : list Options.t :=
  omap (fun c => match c with NewDiscountCodeExport o => Some o | _ => None end) cs.

Definition run_calls (cs : list Call) : list Sink :=
  omap (fun c => match c with Run o => Some o | _ => None end) cs.

Definition credential_calls (cs : list Call) : list jsval :=
  omap (fun c => match c with GetCredentials k => Some k | _ => None end) cs.

(** The reasons that reached the handler through [catch]. *)
Definition caught (hs : list (Origin * reason)) : list reason :=
  omap (fun h => match h with (FromCatch, r) => Some r | _ => None end) hs.

(** A credentials object wraps a token when one of its properties holds it. *)
Definition wraps (c : jsobject) (token : jsval) : Prop :=
  exists k : string, c !! k = Some token.

(** An event by which the readline interface hands over a line or an error. *)
Definition delivers (ev : Event) : bool :=
  match ev with
  | Rl (RlLine _) | Rl (RlError _) => true
  | _ => false
  end.

(** What one invocation of the error handler writes to stderr. *)
Definition reported (E : Env) (level : jsval) (h : Origin * reason) : list string :=
  map (logError E level) (errors_of h.2).

(** The readline events among the events of a run. *)
Definition rl_events (evs : list Event) : list RlEvent :=
  omap (fun ev => match ev with Rl e => Some e | _ => None end) evs.

(** Replacing what was typed for one option. *)
Definition override (k : Key.t) (v : jsval) (given : Supplied) : Supplied :=
  fun k' => if decide (k' = k) then v else given k'.

(** ** The script from line 137 on *)

(** [fs.createWriteStream(path)] for a path handed over as it was parsed: a
    path that is not text is refused with a [TypeError], thrown by the
    call. *)
Definition createWriteStream (path : jsval) : Error + Sink :=
  match path with
  | VStr _ => inr (FileWriteStream path)
  | _ => inl {| name := "TypeError";
                message := "The path argument must be of type string" |}
  end.

(** Lines 137-140: the stream given to npmlog, or the exception of
    line 139. *)
Definition log_stream (args : Args.t) : Error + Sink :=
  if decide (Args.output args = Stdout)
  then createWriteStream (Args.logFile args)
  else inr Stdout.

(** What reaches the process: an event for one of the listeners of the
    script, or an ['error'] of the log stream, to which nothing listens. *)
Inductive Signal :=
| Deliver (ev : Event)
| LogStreamError (e : Error).

(** How the script stands after what has reached it. *)
Inductive Script :=
| Thrown (e : Error)               (* line 139 threw: nothing after it ran *)
| Killed (e : Error) (w : World)   (* ended by an ['error'] of the log stream *)
| Live (w : World).

Fixpoint deliver (E : Env) (args : Args.t) (w : World) (sigs : list Signal)
  : Script :=
  match sigs with
  | [] => Live w
  | Deliver ev :: rest => deliver E args (step E args w ev) rest
  | LogStreamError e :: _ => Killed e w
  end.

(** Lines 137-173.  An exception at line 139 is not caught: the script ends
    there.  An ['error'] of the log stream is not listened to: the process
    ends when it is emitted, and what follows reaches nobody. *)
Definition script (E : Env) (args : Args.t) (level : jsval)
  (sigs : list Signal) : Script :=
  match log_stream args with
  | inl e => Thrown e
  | inr _ => deliver E args (start E args level) sigs
  end.

(** The events that reached the listeners: those before the first error of
    the log stream. *)
Fixpoint delivered (sigs : list Signal) : list Event :=
  match sigs with
  | [] => []
  | Deliver ev :: rest => ev :: delivered rest
  | LogStreamError _ :: _ => []
  end.

Definition log_stream_errors (sigs : list Signal) : list Error :=
  omap (fun sg => match sg with LogStreamError e => Some e | _ => None end)
       sigs.

Definition script_calls (s : Script) : list Call :=
  match s with
  | Thrown _ => []
  | Killed _ w | Live w => calls w
  end.

Definition script_world (s : Script) : option World :=
  match s with
  | Thrown _ => None
  | Killed _ w | Live w => Some w
  end.

(** The status the process ends with: 1 after an uncaught exception,
    otherwise [process.exitCode], 0 when it was never set. *)
Definition exit_status (s : Script) : Z :=
  match s with
  | Thrown _ | Killed _ _ => 1
  | Live w => match exitCode w with Some c => c | None => 0 end
  end.

(** Where a stream writes: the standard output of the process, or a file.
    Which paths lead to the standard output ([/dev/stdout] and the like) is
    the affair of the operating system: [alias]. *)
Inductive Device :=
| StandardOutput
| File (path : jsval).

Definition device (alias : string -> bool) (s : Sink) : Device :=
  match s with
  | Stdout => StandardOutput
  | FileWriteStream (VStr p) =>
      if alias p then StandardOutput else File (VStr p)
  | FileWriteStream v => File v
  end.

(** Text made of ASCII characters only. *)
Fixpoint ascii_only (s : string) : bool :=
  match s with
  | EmptyString => true
  | String c s' => (Ascii.N_of_ascii c <? 128)%N && ascii_only s'
  end.

(** ** Observations on runs and on strings *)

(** The errors the output stream emitted among the events of a run. *)
Definition output_errors (evs : list Event) : list Error :=
  omap (fun ev => match ev with OutputError e => Some e | _ => None end) evs.

(** The reasons the handler received from the listener on [args.output]. *)
Definition from_output (hs : list (Origin * reason)) : list reason :=
  omap (fun h => match h with (FromOutput, r) => Some r | _ => None end) hs.

(** The lines among readline events. *)
Definition line_events (evs : list RlEvent) : list string :=
  omap (fun ev => match ev with RlLine l => Some l | _ => None end) evs.

(** The readers opened, and the number of times a reader was closed. *)
Definition interface_calls (cs : list Call) : list ReadStream :=
  omap (fun c => match c with CreateInterface i => Some i | _ => None end) cs.

Definition close_calls (cs : list Call) : list unit :=
  omap (fun c => match c with RlClose => Some tt | _ => None end) cs.

(** The [rl.close()] an event triggers: one for a line, when a reader is
    open. *)
Definition closes_on (args : Args.t) (ev : Event) : list unit :=
  match Args.template args, ev with
  | Some _, Rl (RlLine _) => [tt]
  | _, _ => []
  end.

(** The chain has reached an end: [run] fulfilled, or [catch] ran. *)
Definition terminal (c : Chain) : bool :=
  match c with
  | Completed | Caught _ => true
  | Joining | Running => false
  end.

(** [s.includes(sep)]: [sep] occurs in [s]. *)
Fixpoint includes (sep s : string) : bool :=
  String.prefix sep s
  || match s with
     | EmptyString => false
     | String _ s' => includes sep s'
     end.

(** All errors handed to the error handler, in order. *)
Definition handled_errors (hs : list (Origin * reason)) : list Error :=
  flat_map (fun h => errors_of h.2) hs.

(** More command lines. *)
Module MoreSamples.

(** [-p shop --logLevel verbose] *)
Definition verbose : Supplied :=
  fun k =>
    match k with
    | Key.projectKey => VStr "shop"
    | Key.logLevel => VStr "verbose"
    | _ => VUndefined
    end.

(** [-p shop --accessToken tok -w "code = 1" -f csv] *)
Definition filtered : Supplied :=
  fun k =>
    match k with
    | Key.projectKey => VStr "shop"
    | Key.accessToken => VStr "tok"
    | Key.where_ => VStr "code = 1"
    | Key.exportFormat => VStr "csv"
    | _ => VUndefined
    end.

(** An export engine that refuses every option object. *)
Definition refusing : Env :=
  {| existsSync := fun v => bool_decide (v = VStr "template.csv");
     construct := fun _ => Some (One (mkError "bad options"));
     render := fun e => "rendered " +:+ message e |}.

End MoreSamples.

(** ** Sample environment and command lines *)

Module Sample.

(** One template file exists; the export engine accepts every option
    object; errors are rendered by their message. *)
Definition env : Env :=
  {| existsSync := fun v => bool_decide (v = VStr "template.csv");
     construct := fun _ => None;
     render := message |}.

Definition supply (l : list (Key.t * jsval)) : Supplied :=
  fun k =>
    match list_find (fun p => p.1 = k) l with
    | Some (_, (_, v)) => v
    | None => VUndefined
    end.

(** [-p shop] *)
Definition bare : Supplied := supply [(Key.projectKey, VStr "shop")].

(** [-p shop -t template.csv] *)
Definition with_template : Supplied :=
  supply [(Key.projectKey, VStr "shop"); (Key.template, VStr "template.csv")].

(** [-p shop -t missing.csv] *)
Definition with_missing_template : Supplied :=
  supply [(Key.projectKey, VStr "shop"); (Key.template, VStr "missing.csv")].

(** [-p shop --accessToken tok] *)
Definition with_token : Supplied :=
  supply [(Key.projectKey, VStr "shop"); (Key.accessToken, VStr "tok")].

(** [-p shop --accessToken tok -t template.csv] *)
Definition with_token_and_template : Supplied :=
  supply [(Key.projectKey, VStr "shop"); (Key.accessToken, VStr "tok");
          (Key.template, VStr "template.csv")].

(** [-p shop -b 0] *)
Definition with_batch_zero : Supplied :=
  supply [(Key.projectKey, VStr "shop"); (Key.batchSize, VNum 0)].

(** [-p shop -o codes.json] *)
Definition to_file : Supplied :=
  supply [(Key.projectKey, VStr "shop"); (Key.output, VStr "codes.json")].

Definition args_of (given : Supplied) : Args.t :=
  match argv env given with
  | inr (a, _) => a
  | inl _ => Args.mk None VUndefined Stdout VUndefined VUndefined VUndefined
               VUndefined VUndefined VUndefined VUndefined VUndefined
               VUndefined VUndefined VUndefined
  end.

Definition auth_error : Error := mkError "auth".
Definition read_error : Error := mkError "read".

End Sample.

(** Command lines on which the script does not get far, or writes its logs
    into its data. *)
Module ScriptSamples.

(** [-p shop --logFile 123] *)
Definition numeric_log : Supplied :=
  Sample.supply [(Key.projectKey, VStr "shop"); (Key.logFile, VNum 123)].

(** [-p shop --accessToken tok --logFile 123] *)
Definition numeric_log_with_token : Supplied :=
  Sample.supply [(Key.projectKey, VStr "shop"); (Key.accessToken, VStr "tok");
                 (Key.logFile, VNum 123)].

(** [-p shop -t template.csv --logFile 123] *)
Definition numeric_log_with_template : Supplied :=
  Sample.supply [(Key.projectKey, VStr "shop");
                 (Key.template, VStr "template.csv"); (Key.logFile, VNum 123)].

(** [-p shop --logFile /dev/stdout] *)
Definition log_to_stdout : Supplied :=
  Sample.supply [(Key.projectKey, VStr "shop");
                 (Key.logFile, VStr "/dev/stdout")].

(** The paths that lead to the standard output. *)
Definition alias (path : string) : bool := String.eqb path "/dev/stdout".

Definition disk_full : Error := {| name := "Error"; message := "ENOSPC" |}.

End ScriptSamples.

(** ** Invariants of the run *)

Section InvariantDefinitions.
Variables (E : Env) (args : Args.t) (level : jsval).

(** [Promise.all] agrees with the two promises it was given. *)
Definition joined (w : World) : Prop :=
  match all w with
  | Pending =>
      is_rejected (credentials w) = false
      /\ is_rejected (fields w) = false
      /\ is_pending (credentials w) || is_pending (fields w) = true
  | Rejected r => credentials w = Rejected r \/ fields w = Rejected r
  | Fulfilled (c, f) => credentials w = Fulfilled c /\ fields w = Fulfilled f
  end.

(** What has been called and reported, by position in the chain. *)
Definition chain_ok (w : World) : Prop :=
  match chain w with
  | Joining =>
      export_calls (calls w) = [] /\ run_calls (calls w) = []
      /\ caught (handled w) = []
  | Running | Completed =>
      exists c f,
        all w = Fulfilled (c, f)
        /\ export_calls (calls w) = [constructorOptions args c f]
        /\ construct E (constructorOptions args c f) = None
        /\ run_calls (calls w) = [Args.output args]
        /\ caught (handled w) = []
  | Caught r =>
      caught (handled w) = [r]
      /\ Forall (fun e => logError E level e ∈ stderr w) (errors_of r)
      /\ match all w with
         | Pending => False
         | Rejected r' =>
             r' = r /\ export_calls (calls w) = [] /\ run_calls (calls w) = []
         | Fulfilled (c, f) =>
             export_calls (calls w) = [constructorOptions args c f]
             /\ (construct E (constructorOptions args c f) = Some r
                 /\ run_calls (calls w) = []
                 \/ construct E (constructorOptions args c f) = None
                    /\ run_calls (calls w) = [Args.output args])
         end
  end.

Definition credentials_ok (w : World) : Prop :=
  if truthy (Args.accessToken args)
  then credentials w = Fulfilled ∅ /\ credential_calls (calls w) = []
  else credential_calls (calls w) = [Args.projectKey args].

Record PreInv (w : World) : Prop := {
  inv_joined : joined w;
  inv_chain : chain_ok w;
  inv_credentials : credentials_ok w;
  inv_template : Args.template args = None -> fields w = Fulfilled None;
  inv_level : npmlog_level w = level;
  inv_exit :
    exitCode w = match handled w with [] => None | _ => Some 1%Z end;
  inv_stderr : stderr w = flat_map (reported E level) (handled w)
}.

(** Between events the chain has reacted to every settlement. *)
Definition Inv (w : World) : Prop :=
  PreInv w /\ (chain w = Joining -> all w = Pending).

End InvariantDefinitions.

(** Reads a field of an updated world. *)
Ltac proj :=
  cbn [credentials fields all chain calls stderr exitCode handled npmlog_level
       set_credentials set_fields set_all set_chain add_calls
       errorHandler] in *.

(** * Properties *)

(** ** split and join *)

Section SplitJoin.
Import JsString.

Lemma split_scan_not_nil sep k s : split_scan sep k s <> [].
Proof.
  revert k; induction s as [|c s IH]; intros k; cbn [split_scan]; [done|].
  destruct k as [|k]; [|apply IH].
  destruct (String.prefix sep (String c s)); [done|].
  destruct (split_scan sep 0 s); done.
Qed.

Lemma join_cons sep t toks :
  toks <> [] -> join sep (t :: toks) = t +:+ sep +:+ join sep toks.
Proof. destruct toks; [done|reflexivity]. Qed.

Lemma join_cons_char sep c tok toks :
  join sep (String c tok :: toks) = String c (join sep (tok :: toks)).
Proof. destruct toks; reflexivity. Qed.

Lemma append_cons c s t : String c s +:+ t = String c (s +:+ t).
Proof. reflexivity. Qed.

Lemma append_nil t : "" +:+ t = t.
Proof. reflexivity. Qed.

Lemma prefix_drop p s :
  String.prefix p s = true -> p +:+ drop (String.length p) s = s.
Proof.
  revert s; induction p as [|a p IH]; intros s H; [reflexivity|].
  destruct s as [|b s]; simpl in H; [done|].
  destruct (Ascii.ascii_dec a b) as [->|]; [|done].
  rewrite append_cons. cbn [String.length drop]. f_equal. by apply IH.
Qed.

Lemma join_split_scan sep s k :
  sep <> "" -> join sep (split_scan sep k s) = drop k s.
Proof.
  intros Hsep. revert k; induction s as [|c s IH]; intros k.
  - by destruct k.
  - destruct k as [|k]; [|apply IH].
    cbn [split_scan drop].
    destruct (String.prefix sep (String c s)) eqn:Hp.
    + rewrite join_cons by apply split_scan_not_nil.
      rewrite IH. destruct sep as [|a sep]; [done|].
      simpl in Hp. destruct (Ascii.ascii_dec a c) as [->|]; [|done].
      rewrite append_cons, append_nil. cbn [String.length].
      rewrite Nat.sub_succ, Nat.sub_0_r. f_equal. by apply prefix_drop.
    + specialize (IH 0). simpl in IH.
      destruct (split_scan sep 0 s) as [|tok toks] eqn:Hs.
      * by apply split_scan_not_nil in Hs.
      * by rewrite join_cons_char, IH.
Qed.

(** Joining the tokens of a split with the separator gives the line back:
    the tokens are the pieces of the line, in order. *)
Lemma join_split s sep : sep <> "" -> join sep (split s sep) = s.
Proof.
  intros Hsep. unfold split. destruct sep as [|a sep]; [done|].
  by rewrite join_split_scan.
Qed.

End SplitJoin.

Example split_header :
  JsString.split "id,name,code" "," = ["id"; "name"; "code"].
Proof. reflexivity. Qed.

Example split_edges :
  JsString.split "" "," = [""]
  /\ JsString.split "" "" = []
  /\ JsString.split "abc" "" = ["a"; "b"; "c"]
  /\ JsString.split ",a,,b," "," = [""; "a"; ""; "b"; ""]
  /\ JsString.split "a::b:c::" "::" = ["a"; "b:c"; ""]
  /\ JsString.split "aaa" "aa" = [""; "a"]
  /\ JsString.split_val "a1b1c" (VNum 1) = ["a"; "b"; "c"].
Proof. repeat split; reflexivity. Qed.

(** ** Field resolution in isolation *)

Lemma getFields_run_settled a evs p cs :
  is_pending p = false -> (getFields_run a evs (p, cs)).1 = p.
Proof.
  revert p cs; induction evs as [|ev evs IH]; intros p cs Hp; [done|].
  cbn [getFields_run fst snd].
  destruct ev; cbn [getFields_on];
    (rewrite IH; [|by destruct p]); by destruct p.
Qed.

Lemma getFields_run_calls a evs p cs :
  exists cs', (getFields_run a evs (p, cs)).2 = cs ++ cs'.
Proof.
  revert p cs; induction evs as [|ev evs IH]; intros p cs.
  - exists []. by rewrite app_nil_r.
  - cbn [getFields_run fst snd].
    destruct (getFields_on a ev p) as [p' cs1].
    destruct (IH p' (cs ++ cs1)) as [cs2 ->].
    exists (cs1 ++ cs2). by rewrite app_assoc.
Qed.

Lemma getFields_run_closed a n p cs :
  getFields_run a (repeat RlClosed n) (p, cs) = (p, cs).
Proof.
  revert cs; induction n as [|n IH]; intros cs; [done|].
  cbn [repeat getFields_run getFields_on fst snd].
  by rewrite app_nil_r.
Qed.

(** ** The option table *)

Lemma argv_inr E given a level :
  argv E given = inr (a, level) ->
  validate given = None
  /\ level = value given Key.logLevel
  /\ Args.language a = value given Key.language
  /\ Args.output a = coerce_output (value given Key.output)
  /\ Args.delimiter a = value given Key.delimiter
  /\ Args.multiValueDelimiter a = value given Key.multiValueDelimiter
  /\ Args.accessToken a = value given Key.accessToken
  /\ Args.projectKey a = value given Key.projectKey
  /\ Args.exportFormat a = value given Key.exportFormat
  /\ Args.batchSize a = value given Key.batchSize
  /\ Args.logFile a = value given Key.logFile
  /\ Args.template a =
       match value given Key.template with
       | VUndefined => None
       | arg => Some (FileReadStream (ToString arg))
       end.
Proof.
  unfold argv, coerce_template, coerce_logLevel. intros H.
  destruct (validate given) eqn:Hv.
  - destruct (value given Key.template); try destruct (existsSync E _); done.
  - destruct (value given Key.template) eqn:Ht;
      try destruct (existsSync E _); try done;
      injection H as <- <-; cbn; by rewrite ?Ht.
Qed.

Lemma first_error_None checks :
  first_error checks = None -> Forall (fun c => c = None) checks.
Proof.
  induction checks as [|[e|] checks IH]; cbn; intros H; [done..|].
  constructor; auto.
Qed.

Lemma validate_None given k :
  validate given = None ->
  check_demand given k = None /\ check_choices given k = None.
Proof.
  intros H%first_error_None. rewrite Forall_app, !Forall_forall in H.
  destruct H as [Hd Hc].
  split; [apply Hd | apply Hc]; apply list_elem_of_fmap_2;
    destruct k; unfold all_keys; set_solver.
Qed.

Lemma validate_exportFormat given :
  validate given = None ->
  value given Key.exportFormat = VStr "csv"
  \/ value given Key.exportFormat = VStr "json".
Proof.
  intros [_ H]%(validate_None _ Key.exportFormat).
  unfold check_choices in H. cbn in H.
  destruct (bool_decide (value given Key.exportFormat = VUndefined)) eqn:Hu.
  - apply bool_decide_eq_true in Hu. unfold value in Hu. cbn in Hu.
    destruct (given Key.exportFormat); done.
  - destruct (bool_decide (value given Key.exportFormat ∈ _)) eqn:Hin; [|done].
    apply bool_decide_eq_true in Hin.
    rewrite !elem_of_cons, elem_of_nil in Hin.
    destruct Hin as [?|[?|[]]]; auto.
Qed.

(** ** The invariants hold throughout the run *)

Section Invariant.
Variables (E : Env) (args : Args.t) (level : jsval).

Lemma caught_app hs hs' : caught (hs ++ hs') = caught hs ++ caught hs'.
Proof. apply omap_app. Qed.

Lemma export_calls_app cs cs' :
  export_calls (cs ++ cs') = export_calls cs ++ export_calls cs'.
Proof. apply omap_app. Qed.

Lemma run_calls_app cs cs' : run_calls (cs ++ cs') = run_calls cs ++ run_calls cs'.
Proof. apply omap_app. Qed.

Lemma credential_calls_app cs cs' :
  credential_calls (cs ++ cs') = credential_calls cs ++ credential_calls cs'.
Proof. apply omap_app. Qed.

Lemma exit_after_handler (hs : list (Origin * reason)) h :
  Some 1%Z = match hs ++ [h] with [] => None | _ => Some 1%Z end.
Proof. by destruct hs. Qed.

Lemma stderr_after_handler w from r :
  npmlog_level w = level ->
  stderr w = flat_map (reported E level) (handled w) ->
  stderr w ++ map (logError E (npmlog_level w)) (errors_of r)
  = flat_map (reported E level) (handled w ++ [(from, r)]).
Proof.
  intros -> ->. rewrite flat_map_app. cbn. by rewrite app_nil_r.
Qed.

Lemma logged_mono (out more : list string) es :
  Forall (fun e => logError E level e ∈ out) es ->
  Forall (fun e => logError E level e ∈ out ++ more) es.
Proof.
  intros H. eapply Forall_impl; [exact H|].
  intros e He. apply elem_of_app. by left.
Qed.

Lemma logged_now (out : list string) es :
  Forall (fun e => logError E level e ∈ out ++ map (logError E level) es) es.
Proof.
  apply Forall_forall. intros e He. apply elem_of_app. right.
  by apply list_elem_of_fmap_2.
Qed.

Lemma react_inv w : PreInv E args level w -> Inv E args level (react E args w).
Proof.
  intros [Hj Hc Hcr Ht Hl Hx Herr]. unfold react.
  destruct (chain w) eqn:Hch; try (split; [by split | by rewrite Hch]).
  unfold chain_ok in Hc. rewrite Hch in Hc. destruct Hc as (He & Hr & Hh).
  destruct (all w) as [|[c f]|r] eqn:Hall.
  - split; [split; try done|done].
    unfold chain_ok. by rewrite Hch.
  - unfold joined in Hj. rewrite Hall in Hj.
    destruct (construct E (constructorOptions args c f)) as [r|] eqn:Hcon.
    + split; [split|done]; try done.
      * unfold joined. proj. by rewrite Hall.
      * unfold chain_ok. proj.
        rewrite Hall, caught_app, export_calls_app, run_calls_app.
        rewrite He, Hr, Hh, Hl. cbn.
        split; [done|]. split; [apply logged_now|]. split; [done|]. by left.
      * unfold credentials_ok in *. proj. rewrite credential_calls_app.
        cbn. by rewrite app_nil_r.
      * proj. apply exit_after_handler.
      * proj. by apply stderr_after_handler.
    + split; [split|done]; try done.
      * unfold joined. proj. by rewrite Hall.
      * unfold chain_ok. proj.
        rewrite Hall, !export_calls_app, !run_calls_app.
        rewrite He, Hr, Hh. cbn. by exists c, f.
      * unfold credentials_ok in *. proj. rewrite !credential_calls_app.
        cbn. by rewrite !app_nil_r.
  - unfold joined in Hj. rewrite Hall in Hj.
    split; [split|done]; try done.
    + unfold joined. proj. by rewrite Hall.
    + unfold chain_ok. proj. rewrite Hall, caught_app, Hh, Hl. cbn.
      split; [done|]. split; [apply logged_now|done].
    + proj. apply exit_after_handler.
    + proj. by apply stderr_after_handler.
Qed.

Lemma start_inv : Inv E args level (start E args level).
Proof.
  unfold start, resolveCredentials, getFields_open.
  destruct (truthy (Args.accessToken args)) eqn:Htok;
    destruct (Args.template args) eqn:Htpl;
    apply react_inv; split; proj; try done;
    unfold joined, chain_ok, credentials_ok; proj; rewrite ?Htok;
    try congruence; by cbn.
Qed.

Lemma handler_output_inv w e :
  Inv E args level w -> Inv E args level (errorHandler E FromOutput (One e) w).
Proof.
  intros [[Hj Hc Hcr Ht Hl Hx Herr] Hp]. split; [split|done]; try done.
  - unfold chain_ok in *. proj. rewrite caught_app. cbn. rewrite app_nil_r.
    destruct (chain w); try done.
    destruct Hc as (? & Hlog & ?). split; [done|]. split; [|done].
    by apply logged_mono.
  - proj. apply exit_after_handler.
  - proj. by apply stderr_after_handler.
Qed.

Lemma run_settled_inv w r :
  Inv E args level w -> Inv E args level (step E args w (RunSettled r)).
Proof.
  intros HI. pose proof HI as [[Hj Hc Hcr Ht Hl Hx Herr] Hp].
  cbn [step]. destruct (chain w) eqn:Hch; try done.
  unfold chain_ok in Hc. rewrite Hch in Hc.
  destruct Hc as (c & f & Hall & He & Hcon & Hr & Hh).
  destruct r as [r|].
  - split; [split|done]; try done.
    + unfold chain_ok. proj. rewrite Hall, caught_app, Hh, Hl. cbn.
      split; [done|]. split; [apply logged_now|]. split; [done|]. by right.
    + proj. apply exit_after_handler.
    + proj. by apply stderr_after_handler.
  - split; [split|done]; try done.
    unfold chain_ok. proj. by exists c, f.
Qed.

Lemma credentials_settled_inv w r :
  Inv E args level w ->
  Inv E args level (step E args w (CredentialsSettled r)).
Proof.
  intros HI. pose proof HI as [[Hj Hc Hcr Ht Hl Hx Herr] Hp].
  cbn [step]. destruct (credentials w) eqn:Hcred; try done.
  assert (Htok : truthy (Args.accessToken args) = false).
  { unfold credentials_ok in Hcr.
    destruct (truthy (Args.accessToken args)); [|done].
    destruct Hcr as [Hcr _]. by rewrite Hcr in Hcred. }
  apply react_inv. split; try done.
  - unfold joined in *. proj. rewrite Hcred in Hj.
    destruct (all w) as [|[c f]|r'] eqn:Hall.
    + destruct Hj as (_ & Hf & _).
      destruct r as [e|c]; cbn; [by left|].
      destruct (fields w) eqn:Hfl; cbn; try done.
    + by destruct Hj.
    + destruct Hj as [?|Hf]; [done|].
      destruct r as [e|c]; cbn; [by right|].
      rewrite Hf. cbn. by right.
  - unfold chain_ok in *. proj.
    destruct (chain w) eqn:Hch; try done.
    + destruct Hc as (c & f & Hall & _). unfold joined in Hj.
      rewrite Hall, Hcred in Hj. by destruct Hj.
    + destruct Hc as (c & f & Hall & _). unfold joined in Hj.
      rewrite Hall, Hcred in Hj. by destruct Hj.
    + destruct Hc as (Hh & Hlog & Hc). split; [done|]. split; [done|].
      unfold joined in Hj. rewrite Hcred in Hj.
      destruct (all w) as [|[c f]|r'] eqn:Hall; [done|by destruct Hj|].
      destruct r as [e|c]; cbn; [done|].
      by destruct (fields w).
  - unfold credentials_ok in *. proj. by rewrite Htok in *.
Qed.

Lemma rl_inv w ev :
  Inv E args level w -> Inv E args level (step E args w (Rl ev)).
Proof.
  intros HI. pose proof HI as [[Hj Hc Hcr Ht Hl Hx Herr] Hp].
  cbn [step]. destruct (Args.template args) as [input|] eqn:Htpl; [|done].
  destruct (getFields_on args ev (fields w)) as [p cs] eqn:Hon.
  assert (Hcs : export_calls cs = [] /\ run_calls cs = []
                /\ credential_calls cs = []).
  { destruct ev; cbn in Hon; by injection Hon as <- <-. }
  destruct Hcs as (Hcs1 & Hcs2 & Hcs3).
  destruct (is_pending (fields w)) eqn:Hpend.
  - destruct (fields w) eqn:Hfl; try done. clear Hpend.
    apply react_inv. split; try done.
    + unfold joined in *. proj. rewrite Hfl in Hj.
      destruct (all w) as [|[c f]|r'] eqn:Hall.
      * destruct Hj as (Hc' & _ & _).
        destruct ev; cbn in Hon; injection Hon as <- <-; cbn.
        -- destruct (credentials w) eqn:Hcred; cbn; try done.
        -- by right.
        -- by rewrite orb_true_r.
      * by destruct Hj.
      * destruct Hj as [Hc'|?]; [|done].
        destruct ev; cbn in Hon; injection Hon as <- <-; cbn;
          rewrite ?Hc'; cbn; by left.
    + unfold chain_ok in *. proj.
      rewrite export_calls_app, run_calls_app, Hcs1, Hcs2, !app_nil_r.
      destruct (chain w) eqn:Hch; try done.
      * destruct Hc as (c & f & Hall & _). unfold joined in Hj.
        rewrite Hall, Hfl in Hj. by destruct Hj.
      * destruct Hc as (c & f & Hall & _). unfold joined in Hj.
        rewrite Hall, Hfl in Hj. by destruct Hj.
      * destruct Hc as (Hh & Hlog & Hc). split; [done|]. split; [done|].
        unfold joined in Hj. rewrite Hfl in Hj.
        destruct (all w) as [|[c f]|r'] eqn:Hall; [done|by destruct Hj|].
        destruct ev; cbn in Hon; injection Hon as <- <-; cbn; try done;
          by destruct (credentials w).
    + unfold credentials_ok in *. proj.
      by rewrite credential_calls_app, Hcs3, app_nil_r.
    + intros Hn. by rewrite Hn in Htpl.
  - assert (p = fields w) as ->.
    { destruct ev; cbn in Hon; injection Hon as <- <-;
        by destruct (fields w). }
    split; [split|done]; try done.
    + unfold chain_ok in *. proj.
      by rewrite export_calls_app, run_calls_app, Hcs1, Hcs2, !app_nil_r.
    + unfold credentials_ok in *. proj.
      by rewrite credential_calls_app, Hcs3, app_nil_r.
    + intros Hn. by rewrite Hn in Htpl.
Qed.

Lemma step_inv w ev :
  Inv E args level w -> Inv E args level (step E args w ev).
Proof.
  destruct ev.
  - apply credentials_settled_inv.
  - apply rl_inv.
  - apply run_settled_inv.
  - apply handler_output_inv.
Qed.

Lemma fold_inv evs w :
  Inv E args level w -> Inv E args level (fold_left (step E args) evs w).
Proof.
  revert w; induction evs as [|ev evs IH]; intros w Hw; [done|].
  cbn. apply IH. by apply step_inv.
Qed.

Lemma exec_inv evs : Inv E args level (exec E args level evs).
Proof. apply fold_inv, start_inv. Qed.

End Invariant.

(** ** The run and its two resolutions *)

Section Run.
Variables (E : Env) (args : Args.t) (level : jsval).

Lemma fields_react w : fields (react E args w) = fields w.
Proof.
  unfold react. destruct (chain w); try done.
  destruct (all w) as [|[c f]|r]; try done.
  by destruct (construct E _).
Qed.

Lemma fields_step w ev :
  fields (step E args w ev) =
    match ev, Args.template args with
    | Rl e, Some _ => (getFields_on args e (fields w)).1
    | _, _ => fields w
    end.
Proof.
  destruct ev as [r|e|r|e]; cbn [step].
  - destruct (credentials w); try done. by rewrite fields_react.
  - destruct (Args.template args); [|done].
    destruct (getFields_on args e (fields w)) as [p cs].
    destruct (is_pending (fields w)); [by rewrite fields_react|done].
  - destruct (chain w); try done. by destruct r.
  - done.
Qed.

Lemma getFields_run_promise evs p cs cs' :
  (getFields_run args evs (p, cs)).1 = (getFields_run args evs (p, cs')).1.
Proof.
  revert p cs cs'; induction evs as [|x l IH]; intros p c1 c2; [done|].
  cbn [getFields_run fst snd]. destruct (getFields_on args x p). apply IH.
Qed.

Lemma fields_fold input evs w cs :
  Args.template args = Some input ->
  fields (fold_left (step E args) evs w)
  = (getFields_run args (rl_events evs) (fields w, cs)).1.
Proof.
  intros Htpl. revert w cs; induction evs as [|ev evs IH]; intros w cs; [done|].
  cbn [fold_left]. rewrite (IH _ cs), fields_step, Htpl.
  destruct ev as [r|e|r|e]; try done.
  change (rl_events (Rl e :: evs)) with (e :: rl_events evs).
  cbn [getFields_run fst snd].
  destruct (getFields_on args e (fields w)) as [p cs'] eqn:Hon.
  apply getFields_run_promise.
Qed.

(** The promise of the run is the one [getFields] computes from the
    readline events alone. *)
Lemma fields_exec evs :
  fields (exec E args level evs) = (getFields args (rl_events evs)).1.
Proof.
  unfold getFields. destruct (Args.template args) as [input|] eqn:Htpl.
  - unfold exec. rewrite (fields_fold input _ _ (getFields_open args).2) by done.
    f_equal. f_equal. unfold start, getFields_open. rewrite Htpl.
    destruct (resolveCredentials args). by rewrite fields_react.
  - unfold getFields_open. rewrite Htpl.
    destruct (exec_inv E args level evs) as [HI _].
    by apply (inv_template _ _ _ _ HI).
Qed.

(** The export engine is built exactly when both promises are fulfilled,
    and with their values. *)
Lemma export_calls_spec w :
  Inv E args level w ->
  export_calls (calls w) =
    match credentials w, fields w with
    | Fulfilled c, Fulfilled f => [constructorOptions args c f]
    | _, _ => []
    end.
Proof.
  intros [[Hj Hc _ _ _ _ _] Hp]. unfold joined, chain_ok in *.
  destruct (all w) as [|[c f]|r] eqn:Hall.
  - destruct Hj as (_ & _ & Hpend).
    assert (export_calls (calls w) = []) as ->.
    { destruct (chain w).
      - by destruct Hc.
      - by destruct Hc as (? & ? & ? & _).
      - by destruct Hc as (? & ? & ? & _).
      - by destruct Hc as (_ & _ & []). }
    by destruct (credentials w), (fields w).
  - destruct Hj as [-> ->].
    destruct (chain w).
    + by specialize (Hp eq_refl).
    + destruct Hc as (c' & f' & Heq & -> & _). by injection Heq as <- <-.
    + destruct Hc as (c' & f' & Heq & -> & _). by injection Heq as <- <-.
    + by destruct Hc as (_ & _ & -> & _).
  - assert (export_calls (calls w) = []) as ->.
    { destruct (chain w).
      - by specialize (Hp eq_refl).
      - by destruct Hc as (? & ? & ? & _).
      - by destruct Hc as (? & ? & ? & _).
      - by destruct Hc as (_ & _ & _ & -> & _). }
    destruct Hj as [-> | ->]; [done|]. by destruct (credentials w).
Qed.

(** [run] is invoked at most once, on [args.output], and only on an
    engine whose construction did not throw. *)
Lemma run_calls_spec w :
  Inv E args level w ->
  run_calls (calls w) = []
  \/ run_calls (calls w) = [Args.output args]
     /\ exists c f, credentials w = Fulfilled c /\ fields w = Fulfilled f
                    /\ construct E (constructorOptions args c f) = None.
Proof.
  intros [[Hj Hc _ _ _ _ _] Hp]. unfold joined, chain_ok in *.
  destruct (chain w).
  - left. by destruct Hc as (_ & ? & _).
  - right. destruct Hc as (c & f & Hall & _ & Hcon & Hr & _).
    rewrite Hall in Hj. destruct Hj. split; [done|]. by exists c, f.
  - right. destruct Hc as (c & f & Hall & _ & Hcon & Hr & _).
    rewrite Hall in Hj. destruct Hj. split; [done|]. by exists c, f.
  - destruct Hc as (_ & _ & Hc).
    destruct (all w) as [|[c f]|r'] eqn:Hall; [done| |].
    + destruct Hc as (_ & [[_ ?]|[Hcon ?]]); [by left|right].
      destruct Hj. split; [done|]. by exists c, f.
    + left. by destruct Hc as (_ & _ & ?).
Qed.

Lemma elem_of_export_calls o cs :
  NewDiscountCodeExport o ∈ cs <-> o ∈ export_calls cs.
Proof.
  unfold export_calls. rewrite list_elem_of_omap. split.
  - intros H. by exists (NewDiscountCodeExport o).
  - intros (c & Hc & Heq). destruct c; try done. by injection Heq as ->.
Qed.

Lemma elem_of_run_calls o cs : Run o ∈ cs <-> o ∈ run_calls cs.
Proof.
  unfold run_calls. rewrite list_elem_of_omap. split.
  - intros H. by exists (Run o).
  - intros (c & Hc & Heq). destruct c; try done. by injection Heq as ->.
Qed.

Lemma elem_of_credential_calls k cs :
  GetCredentials k ∈ cs <-> k ∈ credential_calls cs.
Proof.
  unfold credential_calls. rewrite list_elem_of_omap. split.
  - intros H. by exists (GetCredentials k).
  - intros (c & Hc & Heq). destruct c; try done. by injection Heq as ->.
Qed.

Lemma quiet_rl_events evs :
  forallb (fun ev => negb (delivers ev)) evs = true ->
  exists n, rl_events evs = repeat RlClosed n.
Proof.
  induction evs as [|ev evs IH]; cbn [forallb]; [by exists 0|].
  intros [Hev Hevs]%andb_prop. destruct (IH Hevs) as [n Hn].
  destruct ev as [r|[l|e|]|r|e]; try done.
  - exists n. by rewrite <- Hn.
  - exists (S n). change (RlClosed :: rl_events evs = RlClosed :: repeat RlClosed n).
    by rewrite Hn.
  - exists n. by rewrite <- Hn.
  - exists n. by rewrite <- Hn.
Qed.

End Run.

(** ** Field resolution *)

(** C8: without a template, field resolution returns null: [getFields]
    resolves with null whatever happens afterwards, no reader is opened, and
    every export engine that is built receives [fields = null] together with
    the configured language. *)
Theorem getFields_without_template (E : Env) (args : Args.t) (level : jsval) :
  Args.template args = None ->
  (forall evs, getFields args evs = (Fulfilled None, []))
  /\ (forall evs, fields (exec E args level evs) = Fulfilled None)
  /\ (forall evs opts,
        NewDiscountCodeExport opts ∈ calls (exec E args level evs) ->
        Options.fields opts = None
        /\ Options.language opts = Args.language args).
Proof.
  intros Htpl.
  assert (Hg : forall evs, getFields args evs = (Fulfilled None, [])).
  { intros evs. unfold getFields, getFields_open. by rewrite Htpl. }
  assert (Hf : forall evs, fields (exec E args level evs) = Fulfilled None).
  { intros evs. by rewrite fields_exec, Hg. }
  split; [done|]. split; [done|].
  intros evs opts Hin. apply elem_of_export_calls in Hin.
  rewrite (export_calls_spec E args level) in Hin by apply exec_inv.
  rewrite Hf in Hin.
  destruct (credentials (exec E args level evs)); try by apply elem_of_nil in Hin.
  apply list_elem_of_singleton in Hin. by subst opts.
Qed.

Lemma getFields_without_template_witness :
  Args.template (Sample.args_of Sample.with_token) = None
  /\ getFields (Sample.args_of Sample.with_token) [RlLine "x"]
     = (Fulfilled None, []).
Proof.
  split; [reflexivity|].
  apply (getFields_without_template Sample.env _ VUndefined). reflexivity.
Defined.

(** C1: what the code does for a template that fails or is empty.  An error
    emitted before any line rejects the resolution with that error.  A reader
    that closes without having emitted a line leaves the resolution pending:
    nothing listens to ['close'], so no error is produced, no export engine is
    built, the run never completes, and nothing about the template reaches
    the error handler. *)
Theorem getFields_error_and_empty_template (E : Env) (args : Args.t)
  (level : jsval) (input : ReadStream) :
  Args.template args = Some input ->
  (forall e rest, (getFields args (RlError e :: rest)).1 = Rejected (One e))
  /\ (forall n, (getFields args (repeat RlClosed n)).1 = Pending)
  /\ (forall evs,
        forallb (fun ev => negb (delivers ev)) evs = true ->
        let w := exec E args level evs in
        fields w = Pending
        /\ export_calls (calls w) = []
        /\ chain w <> Completed
        /\ (forall r, r ∈ caught (handled w) -> credentials w = Rejected r)).
Proof.
  intros Htpl.
  assert (Hq : forall n, (getFields args (repeat RlClosed n)).1 = Pending).
  { intros n. unfold getFields, getFields_open. rewrite Htpl.
    by rewrite getFields_run_closed. }
  split; [|split; [done|]].
  - intros e rest. unfold getFields, getFields_open. rewrite Htpl.
    cbn [getFields_run getFields_on fst snd settle].
    by rewrite getFields_run_settled.
  - intros evs Hquiet w.
    assert (Hf : fields w = Pending).
    { unfold w. rewrite fields_exec.
      destruct (quiet_rl_events evs Hquiet) as [n ->]. apply Hq. }
    pose proof (exec_inv E args level evs) as HI. fold w in HI.
    pose proof (export_calls_spec E args level w HI) as He.
    rewrite Hf in He.
    destruct HI as [[Hj Hc _ _ _ _ _] Hp]. unfold joined, chain_ok in *.
    rewrite Hf in Hj.
    split; [done|]. split; [by destruct (credentials w)|]. split.
    + intros Hch. rewrite Hch in Hc. destruct Hc as (c & f & Hall & _).
      rewrite Hall in Hj. by destruct Hj.
    + intros r Hr. destruct (chain w).
      * destruct Hc as (_ & _ & Hh). rewrite Hh in Hr. by apply elem_of_nil in Hr.
      * destruct Hc as (c & f & Hall & _). rewrite Hall in Hj. by destruct Hj.
      * destruct Hc as (c & f & Hall & _). rewrite Hall in Hj. by destruct Hj.
      * destruct Hc as (Hh & _ & Hc). rewrite Hh in Hr.
        apply list_elem_of_singleton in Hr. subst r.
        destruct (all w) as [|[c f]|r']; [done|by destruct Hj|].
        destruct Hc as (-> & _). by destruct Hj.
Qed.

Lemma getFields_error_and_empty_template_witness :
  Args.template (Sample.args_of Sample.with_token_and_template)
  = Some (FileReadStream "template.csv")
  /\ (getFields (Sample.args_of Sample.with_token_and_template) [RlClosed]).1
     = Pending
  /\ let w := exec Sample.env (Sample.args_of Sample.with_token_and_template)
                (VStr "info") [Rl RlClosed] in
     fields w = Pending /\ chain w = Joining /\ calls w = [CreateInterface (FileReadStream "template.csv")]
     /\ stderr w = [] /\ exitCode w = None.
Proof.
  split; [reflexivity|].
  destruct (getFields_error_and_empty_template Sample.env
              (Sample.args_of Sample.with_token_and_template) (VStr "info")
              (FileReadStream "template.csv") eq_refl) as (_ & Hq & Hrun).
  split; [exact (Hq 1)|].
  destruct (Hrun [Rl RlClosed] eq_refl) as (Hf & _).
  split; [exact Hf|]. vm_compute. repeat split.
Defined.

(** ** Credential resolution *)

(** C2, at a concrete command line: with the access token ["tok"] the
    credentials handed back are the empty object, which holds no token. *)
Lemma resolveCredentials_token_not_wrapped :
  let args := Sample.args_of Sample.with_token in
  Args.accessToken args = VStr "tok"
  /\ exists c, resolveCredentials args = (Fulfilled c, [])
               /\ ~ wraps c (Args.accessToken args).
Proof.
  split; [reflexivity|]. exists ∅. split; [reflexivity|].
  intros [k Hk]. by rewrite lookup_empty in Hk.
Qed.

(** ** The join before the export *)

Section Calls.
Variables (E : Env) (args : Args.t).

Lemma calls_react w : calls w `prefix_of` calls (react E args w).
Proof.
  unfold react. destruct (chain w); try done.
  destruct (all w) as [|[c f]|r]; try done.
  destruct (construct E _); proj.
  - by apply prefix_app_r.
  - rewrite <- app_assoc. by apply prefix_app_r.
Qed.

Lemma calls_step w ev : calls w `prefix_of` calls (step E args w ev).
Proof.
  destruct ev as [r|e|r|e]; cbn [step].
  - destruct (credentials w); try done.
    etrans; [|apply calls_react]. done.
  - destruct (Args.template args); [|done].
    destruct (getFields_on args e (fields w)) as [p cs].
    destruct (is_pending (fields w)).
    + etrans; [|apply calls_react]. proj. by apply prefix_app_r.
    + proj. by apply prefix_app_r.
  - destruct (chain w); try done. by destruct r.
  - done.
Qed.

Lemma calls_fold evs w :
  calls w `prefix_of` calls (fold_left (step E args) evs w).
Proof.
  revert w; induction evs as [|ev evs IH]; intros w; [done|].
  cbn [fold_left]. etrans; [apply calls_step|apply IH].
Qed.

Lemma calls_exec level evs :
  (resolveCredentials args).2 ++ (getFields_open args).2
    `prefix_of` calls (exec E args level evs).
Proof.
  unfold exec. etrans; [|apply calls_fold].
  unfold start. destruct (resolveCredentials args) as [cp c1].
  destruct (getFields_open args) as [fp c2].
  etrans; [|apply calls_react]. done.
Qed.

End Calls.

(** ** Failures *)

(** C5, at a concrete run: the credential exchange fails, then the template
    reader fails.  Both resolutions are rejected, but only the first error
    reaches the handler; the template error is reported nowhere. *)
Lemma second_preflight_error_not_reported :
  let w := exec Sample.env (Sample.args_of Sample.with_template) (VStr "info")
             [CredentialsSettled (inl (One Sample.auth_error));
              Rl (RlError Sample.read_error)] in
  credentials w = Rejected (One Sample.auth_error)
  /\ fields w = Rejected (One Sample.read_error)
  /\ handled w = [(FromCatch, One Sample.auth_error)]
  /\ stderr w = ["ERR: auth"]
  /\ exitCode w = Some 1%Z.
Proof. vm_compute. repeat split. Qed.

(** C5, amended: the promise chain hands at most one rejection to the error
    handler, the first failure among credential resolution, template
    reading, export construction and the export run.  The handler writes
    each of its errors to stderr once per invocation and sets exit code 1.
    Whenever one of the four stages has failed the chain has been caught, so
    the exit code is 1 and the run is not completed; a run that completed
    caught nothing.  A pre-flight failure that comes second is not
    reported. *)
Theorem chain_failure_reported_once (E : Env) (args : Args.t) (level : jsval)
  (evs : list Event) :
  let w := exec E args level evs in
  length (caught (handled w)) <= 1
  /\ (forall r, chain w = Caught r <-> caught (handled w) = [r])
  /\ (forall r, chain w = Caught r ->
        exitCode w = Some 1%Z
        /\ Forall (fun e => logError E level e ∈ stderr w) (errors_of r)
        /\ (all w = Rejected r
            /\ (credentials w = Rejected r \/ fields w = Rejected r)
            \/ exists c f,
                 all w = Fulfilled (c, f)
                 /\ (construct E (constructorOptions args c f) = Some r
                     \/ run_calls (calls w) = [Args.output args])))
  /\ (is_rejected (credentials w) || is_rejected (fields w) = true ->
        exists r, chain w = Caught r
                  /\ (credentials w = Rejected r \/ fields w = Rejected r))
  /\ (forall o r, o ∈ export_calls (calls w) -> construct E o = Some r ->
        chain w = Caught r)
  /\ (forall r, chain w = Running ->
        chain (exec E args level (evs ++ [RunSettled (Some r)])) = Caught r)
  /\ stderr w = flat_map (reported E level) (handled w)
  /\ exitCode w = match handled w with [] => None | _ => Some 1%Z end
  /\ (chain w = Completed -> caught (handled w) = []).
Proof.
  intros w. pose proof (exec_inv E args level evs) as HI. fold w in HI.
  destruct HI as [[Hj Hc _ _ _ Hx Herr] Hp]. unfold joined, chain_ok in *.
  split; [|split; [|split; [|split; [|split; [|split; [|split; [|split]]]]]]];
    try done.
  - destruct (chain w).
    + destruct Hc as (_ & _ & ->). cbn. lia.
    + destruct Hc as (_ & _ & _ & _ & _ & _ & ->). cbn. lia.
    + destruct Hc as (_ & _ & _ & _ & _ & _ & ->). cbn. lia.
    + destruct Hc as (-> & _). cbn. lia.
  - intros r. split.
    + intros Hch. rewrite Hch in Hc. by destruct Hc.
    + intros Hh. destruct (chain w).
      * destruct Hc as (_ & _ & Hc). by rewrite Hc in Hh.
      * destruct Hc as (_ & _ & _ & _ & _ & _ & Hc). by rewrite Hc in Hh.
      * destruct Hc as (_ & _ & _ & _ & _ & _ & Hc). by rewrite Hc in Hh.
      * destruct Hc as (Hc & _). rewrite Hc in Hh. by injection Hh as ->.
  - intros r Hch. rewrite Hch in Hc. destruct Hc as (Hh & Hlog & Hc).
    split; [|split; [done|]].
    + rewrite Hx. destruct (handled w); [done|done].
    + destruct (all w) as [|[c f]|r']; [done| |].
      * right. exists c, f. split; [done|].
        destruct Hc as (_ & [[? _]|[_ ?]]); [by left|by right].
      * left. destruct Hc as (-> & _). done.
  - intros Hrej. destruct (all w) as [|[c f]|r] eqn:Hall.
    + destruct Hj as (H1 & H2 & _). by rewrite H1, H2 in Hrej.
    + destruct Hj as (H1 & H2). by rewrite H1, H2 in Hrej.
    + exists r. split; [|done]. destruct (chain w).
      * by specialize (Hp eq_refl).
      * by destruct Hc as (? & ? & ? & _).
      * by destruct Hc as (? & ? & ? & _).
      * by destruct Hc as (_ & _ & -> & _).
  - intros o r Ho Hcon. destruct (chain w).
    + destruct Hc as (Hc & _). rewrite Hc in Ho. by apply elem_of_nil in Ho.
    + destruct Hc as (c & f & _ & He & Hn & _). rewrite He in Ho.
      apply list_elem_of_singleton in Ho. subst o. by rewrite Hn in Hcon.
    + destruct Hc as (c & f & _ & He & Hn & _). rewrite He in Ho.
      apply list_elem_of_singleton in Ho. subst o. by rewrite Hn in Hcon.
    + destruct Hc as (_ & _ & Hc). destruct (all w) as [|[c f]|r']; [done| |].
      * destruct Hc as (He & Hc). rewrite He in Ho.
        apply list_elem_of_singleton in Ho. subst o.
        destruct Hc as [[Hs _]|[Hn _]]; rewrite Hcon in *; congruence.
      * destruct Hc as (_ & He & _). rewrite He in Ho.
        by apply elem_of_nil in Ho.
  - intros r Hch. unfold exec. rewrite fold_left_app. cbn [fold_left step].
    fold (exec E args level evs). fold w. by rewrite Hch.
  - intros Hch. rewrite Hch in Hc. by destruct Hc as (_ & _ & _ & _ & _ & _ & ?).
Qed.

Lemma chain_failure_reported_once_witness :
  let w := exec Sample.env (Sample.args_of Sample.with_template) (VStr "info")
             [Rl (RlError Sample.read_error)] in
  is_rejected (credentials w) || is_rejected (fields w) = true
  /\ exists r, chain w = Caught r
               /\ (credentials w = Rejected r \/ fields w = Rejected r).
Proof.
  intros w. split; [reflexivity|].
  apply (chain_failure_reported_once Sample.env
           (Sample.args_of Sample.with_template) (VStr "info")
           [Rl (RlError Sample.read_error)]).
  reflexivity.
Defined.

(** ** Configuration *)

Lemma value_override_ne k k' v given :
  k <> k' -> value (override k' v given) k = value given k.
Proof. intros Hne. unfold value, override. by destruct (decide (k = k')). Qed.

Lemma validate_override_batchSize v given :
  validate (override Key.batchSize v given) = validate given.
Proof.
  unfold validate, all_keys. cbn [map app].
  unfold check_demand, check_choices. cbn [options plain demand choices andb].
  by rewrite !value_override_ne.
Qed.

(** C6, at a concrete command line: [-p shop -b 0] is accepted; the
    credential exchange is invoked, and once it answers the export engine is
    built with batch size 0. *)
Lemma batch_size_zero_accepted :
  let args := Sample.args_of Sample.with_batch_zero in
  argv Sample.env Sample.with_batch_zero = inr (args, VStr "info")
  /\ Args.batchSize args = VNum 0
  /\ calls (exec Sample.env args (VStr "info") [])
     = [GetCredentials (VStr "shop")]
  /\ map Options.batchSize
       (export_calls
          (calls (exec Sample.env args (VStr "info")
                    [CredentialsSettled (inr ∅)])))
     = [VNum 0].
Proof. vm_compute. repeat split. Qed.

(** C7: an option that is not typed takes its default, batch size 500,
    delimiter [,], multi-value delimiter [;], export format [json], language
    [en]; an accepted export format is [csv] or [json]; and these values are
    the ones the export engine is configured with. *)
Theorem argv_defaults (E : Env) (given : Supplied) (args : Args.t)
  (level : jsval) :
  argv E given = inr (args, level) ->
  (given Key.batchSize = VUndefined -> Args.batchSize args = VNum 500)
  /\ (given Key.delimiter = VUndefined -> Args.delimiter args = VStr ",")
  /\ (given Key.multiValueDelimiter = VUndefined ->
        Args.multiValueDelimiter args = VStr ";")
  /\ (given Key.exportFormat = VUndefined -> Args.exportFormat args = VStr "json")
  /\ (given Key.language = VUndefined -> Args.language args = VStr "en")
  /\ (Args.exportFormat args = VStr "csv" \/ Args.exportFormat args = VStr "json")
  /\ (forall c f,
        let opts := constructorOptions args c f in
        Options.batchSize opts = Args.batchSize args
        /\ Options.delimiter opts = Args.delimiter args
        /\ Options.multiValueDelimiter opts = Args.multiValueDelimiter args
        /\ Options.exportFormat opts = Args.exportFormat args
        /\ Options.language opts = Args.language args).
Proof.
  intros Hargv.
  pose proof (argv_inr _ _ _ _ Hargv)
    as (Hv & _ & Hlang & _ & Hd & Hm & _ & _ & Hf & Hb & _).
  assert (Hopts : forall c f,
            let opts := constructorOptions args c f in
            Options.batchSize opts = Args.batchSize args
            /\ Options.delimiter opts = Args.delimiter args
            /\ Options.multiValueDelimiter opts = Args.multiValueDelimiter args
            /\ Options.exportFormat opts = Args.exportFormat args
            /\ Options.language opts = Args.language args).
  { intros c f opts. by repeat split. }
  split; [intros Hg; rewrite Hb; unfold value; by rewrite Hg|].
  split; [intros Hg; rewrite Hd; unfold value; by rewrite Hg|].
  split; [intros Hg; rewrite Hm; unfold value; by rewrite Hg|].
  split; [intros Hg; rewrite Hf; unfold value; by rewrite Hg|].
  split; [intros Hg; rewrite Hlang; unfold value; by rewrite Hg|].
  split; [rewrite Hf; by apply validate_exportFormat|].
  exact Hopts.
Qed.

Lemma argv_defaults_witness :
  argv Sample.env Sample.bare
  = inr (Sample.args_of Sample.bare, VStr "info")
  /\ Args.batchSize (Sample.args_of Sample.bare) = VNum 500
  /\ Args.delimiter (Sample.args_of Sample.bare) = VStr ","
  /\ Args.multiValueDelimiter (Sample.args_of Sample.bare) = VStr ";"
  /\ Args.exportFormat (Sample.args_of Sample.bare) = VStr "json"
  /\ Args.language (Sample.args_of Sample.bare) = VStr "en".
Proof.
  split; [reflexivity|].
  destruct (argv_defaults Sample.env Sample.bare (Sample.args_of Sample.bare)
              (VStr "info") eq_refl) as (Hb & Hd & Hm & Hf & Hl & _).
  split; [apply Hb; reflexivity|]. split; [apply Hd; reflexivity|].
  split; [apply Hm; reflexivity|]. split; [apply Hf; reflexivity|].
  apply Hl; reflexivity.
Defined.

(** ** Streams *)



(** ** Sample runs *)

(** [-p shop -t template.csv]: the header is read, the exchange answers, the
    export runs to completion. *)
Example run_with_template :
  let w := exec Sample.env (Sample.args_of Sample.with_template) (VStr "info")
             [Rl (RlLine "id,name,code"); Rl (RlLine "1,summer,SUN10");
              CredentialsSettled (inr ∅); Rl RlClosed; RunSettled None] in
  chain w = Completed
  /\ map Options.fields (export_calls (calls w))
     = [Some ["id"; "name"; "code"]]
  /\ run_calls (calls w) = [Stdout]
  /\ stderr w = [] /\ exitCode w = None.
Proof. vm_compute. repeat split. Qed.

(** A command line without project key, or with an unknown export format,
    is refused by the parser. *)
Example parse_refusals :
  main Sample.env (Sample.supply []) []
  = ParseFailed (MissingRequired Key.projectKey)
  /\ main Sample.env
       (Sample.supply [(Key.projectKey, VStr "shop");
                       (Key.exportFormat, VStr "xml")]) []
     = ParseFailed (InvalidChoice Key.exportFormat (VStr "xml")).
Proof. vm_compute. repeat split. Qed.

(** * Further properties of the script *)

(** ** Acceptance of a command line *)

Lemma value_projectKey given :
  value given Key.projectKey = given Key.projectKey.
Proof. unfold value. by destruct (given Key.projectKey). Qed.

Lemma value_template given :
  value given Key.template = given Key.template.
Proof. unfold value. by destruct (given Key.template). Qed.

Lemma check_demand_projectKey given :
  check_demand given Key.projectKey = None
  <-> given Key.projectKey <> VUndefined.
Proof.
  unfold check_demand. cbn [options demand andb]. rewrite value_projectKey.
  destruct (decide (given Key.projectKey = VUndefined)) as [Heq|Hne].
  - rewrite bool_decide_eq_true_2 by done. by split.
  - rewrite bool_decide_eq_false_2 by done. by split.
Qed.

Lemma check_choices_exportFormat given :
  check_choices given Key.exportFormat = None
  <-> given Key.exportFormat = VUndefined
      \/ given Key.exportFormat = VStr "csv"
      \/ given Key.exportFormat = VStr "json".
Proof.
  unfold check_choices. cbn [options choices].
  unfold value. cbn [options default].
  destruct (given Key.exportFormat) as [|b|n|f] eqn:Hf.
  - rewrite bool_decide_eq_false_2 by done.
    rewrite bool_decide_eq_true_2
      by (rewrite !elem_of_cons; right; by left).
    split; [by left|done].
  - rewrite bool_decide_eq_false_2 by done.
    rewrite bool_decide_eq_false_2
      by (rewrite !elem_of_cons, elem_of_nil; intros [?|[?|[]]]; done).
    split; [done|]. intros [?|[?|?]]; done.
  - rewrite bool_decide_eq_false_2 by done.
    rewrite bool_decide_eq_false_2
      by (rewrite !elem_of_cons, elem_of_nil; intros [?|[?|[]]]; done).
    split; [done|]. intros [?|[?|?]]; done.
  - rewrite bool_decide_eq_false_2 by done.
    destruct (bool_decide (VStr f ∈ [VStr "csv"; VStr "json"])) eqn:Hin.
    + apply bool_decide_eq_true in Hin.
      rewrite !elem_of_cons, elem_of_nil in Hin.
      split; [intros _|done]. destruct Hin as [?|[?|[]]]; auto.
    + apply bool_decide_eq_false in Hin.
      rewrite !elem_of_cons, elem_of_nil in Hin.
      split; [done|]. intros [?|[?|?]]; [done|..]; exfalso; auto.
Qed.

Lemma validate_unfold given :
  validate given =
    match check_demand given Key.projectKey with
    | Some e => Some e
    | None => check_choices given Key.exportFormat
    end.
Proof.
  unfold validate, all_keys. cbn [map app].
  repeat match goal with
    | |- context [check_demand given ?k] =>
        lazymatch k with
        | Key.projectKey => fail
        | _ => change (check_demand given k) with (@None ParseError)
        end
    | |- context [check_choices given ?k] =>
        lazymatch k with
        | Key.exportFormat => fail
        | _ => change (check_choices given k) with (@None ParseError)
        end
    end.
  cbn [first_error].
  destruct (check_demand given Key.projectKey); [done|].
  cbn [first_error]. by destruct (check_choices given Key.exportFormat).
Qed.

(** X1: a command line is accepted exactly when the template, if one is
    typed, exists, the project key is typed, and the export format, if
    typed, is [csv] or [json].  No other option is ever a ground for
    refusal. *)
Theorem argv_accepts_iff (E : Env) (given : Supplied) :
  (exists args level, argv E given = inr (args, level))
  <-> (given Key.template = VUndefined
       \/ existsSync E (given Key.template) = true)
      /\ given Key.projectKey <> VUndefined
      /\ (given Key.exportFormat = VUndefined
          \/ given Key.exportFormat = VStr "csv"
          \/ given Key.exportFormat = VStr "json").
Proof.
  rewrite <- check_demand_projectKey, <- check_choices_exportFormat.
  unfold argv, coerce_template. rewrite value_template, validate_unfold.
  split.
  - intros (args & level & H).
    destruct (check_demand given Key.projectKey);
      [by destruct (given Key.template); try destruct (existsSync E _)|].
    destruct (check_choices given Key.exportFormat);
      [by destruct (given Key.template); try destruct (existsSync E _)|].
    split; [|done].
    destruct (given Key.template); [by left|..]; right;
      by destruct (existsSync E _).
  - intros (Ht & -> & ->).
    destruct Ht as [-> | Hex]; [cbn; eauto|].
    destruct (given Key.template); [cbn; eauto|..]; rewrite Hex; cbn; eauto.
Qed.

Lemma argv_accepts_iff_witness :
  (exists args level, argv Sample.env Sample.with_template = inr (args, level))
  /\ ~ (exists args level,
           argv Sample.env Sample.with_missing_template = inr (args, level)).
Proof.
  split.
  - apply (argv_accepts_iff Sample.env Sample.with_template).
    split; [by right|]. split; [by vm_compute|by left].
  - intros H.
    apply (argv_accepts_iff Sample.env Sample.with_missing_template) in H.
    destruct H as ([H|H] & _); by vm_compute in H.
Defined.

(** ** What the export engine is built with *)

Lemma argv_inr_connection E given a level :
  argv E given = inr (a, level) ->
  Args.apiUrl a = value given Key.apiUrl
  /\ Args.authUrl a = value given Key.authUrl
  /\ Args.where_ a = value given Key.where_
  /\ Args.logLevel a = VUndefined.
Proof.
  unfold argv, coerce_template, coerce_logLevel. intros H.
  destruct (validate given).
  - destruct (value given Key.template); try destruct (existsSync E _); done.
  - destruct (value given Key.template);
      try destruct (existsSync E _); try done;
      by injection H as <- <-.
Qed.

Lemma export_call_options E args level evs opts :
  NewDiscountCodeExport opts ∈ calls (exec E args level evs) ->
  exists c f, opts = constructorOptions args c f.
Proof.
  intros Hin. apply elem_of_export_calls in Hin.
  rewrite (export_calls_spec E args level) in Hin by apply exec_inv.
  destruct (credentials _) as [|c|]; try by apply elem_of_nil in Hin.
  destruct (fields _) as [|f|]; try by apply elem_of_nil in Hin.
  apply list_elem_of_singleton in Hin. by exists c, f.
Qed.

(** X2: whenever the export engine is built it is built for a project key
    that was typed (never an absent one), with the OAuth URL as [host] of the
    API configuration, the API URL as [apiUrl], the [where] predicate as
    [predicate] and the access token as typed; URLs that were not typed are
    the Europe (GCP) defaults. *)
Theorem export_built_as_typed (E : Env) (given : Supplied) (args : Args.t)
  (level : jsval) (evs : list Event) (opts : Options.t) :
  argv E given = inr (args, level) ->
  NewDiscountCodeExport opts ∈ calls (exec E args level evs) ->
  ApiConfig.projectKey (Options.apiConfig opts) = given Key.projectKey
  /\ given Key.projectKey <> VUndefined
  /\ ApiConfig.host (Options.apiConfig opts) = value given Key.authUrl
  /\ ApiConfig.apiUrl (Options.apiConfig opts) = value given Key.apiUrl
  /\ Options.predicate opts = given Key.where_
  /\ Options.accessToken opts = given Key.accessToken
  /\ (given Key.authUrl = VUndefined ->
        ApiConfig.host (Options.apiConfig opts)
        = VStr "https://auth.europe-west1.gcp.commercetools.com")
  /\ (given Key.apiUrl = VUndefined ->
        ApiConfig.apiUrl (Options.apiConfig opts)
        = VStr "https://api.europe-west1.gcp.commercetools.com").
Proof.
  intros Hargv Hin.
  destruct (export_call_options _ _ _ _ _ Hin) as (c & f & ->).
  pose proof (argv_inr _ _ _ _ Hargv)
    as (Hv & _ & _ & _ & _ & _ & Htok & Hkey & _).
  pose proof (argv_inr_connection _ _ _ _ Hargv) as (Hapi & Hauth & Hw & _).
  rewrite validate_unfold in Hv.
  assert (Hk : given Key.projectKey <> VUndefined).
  { apply check_demand_projectKey.
    by destruct (check_demand given Key.projectKey). }
  cbn [constructorOptions Options.apiConfig Options.predicate
       Options.accessToken ApiConfig.projectKey ApiConfig.host ApiConfig.apiUrl].
  rewrite Hkey, Hauth, Hapi, Hw, Htok, value_projectKey.
  split; [done|]. split; [done|]. split; [done|]. split; [done|].
  split; [unfold value; by destruct (given Key.where_)|].
  split; [unfold value; by destruct (given Key.accessToken)|].
  split; intros Hg; unfold value; by rewrite Hg.
Qed.

Lemma export_built_as_typed_witness :
  let args := Sample.args_of MoreSamples.filtered in
  let opts := constructorOptions args ∅ None in
  argv Sample.env MoreSamples.filtered = inr (args, VStr "info")
  /\ NewDiscountCodeExport opts ∈ calls (exec Sample.env args (VStr "info") [])
  /\ ApiConfig.projectKey (Options.apiConfig opts) = VStr "shop"
  /\ Options.predicate opts = VStr "code = 1".
Proof.
  intros args opts.
  assert (Hargv : argv Sample.env MoreSamples.filtered
                  = inr (args, VStr "info")) by reflexivity.
  assert (Hin : NewDiscountCodeExport opts
                ∈ calls (exec Sample.env args (VStr "info") [])).
  { vm_compute. apply list_elem_of_here. }
  split; [exact Hargv|]. split; [exact Hin|].
  destruct (export_built_as_typed Sample.env MoreSamples.filtered args
              (VStr "info") [] opts Hargv Hin)
    as (Hk & _ & _ & _ & Hp & _).
  split; [exact Hk|exact Hp].
Defined.

(** ** What is written to stderr *)

Lemma map_flat_map {A B C} (f : B -> C) (g : A -> list B) (l : list A) :
  map f (flat_map g l) = flat_map (fun x => map f (g x)) l.
Proof.
  induction l as [|x l IH]; [done|]. cbn. by rewrite map_app, IH.
Qed.

Lemma prefix_append p s : String.prefix p (p +:+ s) = true.
Proof.
  induction p as [|a p IH]; [by destruct s|].
  rewrite append_cons. cbn [String.prefix].
  by destruct (Ascii.ascii_dec a a).
Qed.

Lemma logError_prefix E level e :
  String.prefix "ERR: " (logError E level e) = true.
Proof.
  unfold logError.
  destruct (decide (level = VStr "verbose")); apply prefix_append.
Qed.

(** ** How a run evolves *)

Section Evolution.
Variables (E : Env) (args : Args.t).

Lemma exec_app level evs evs' :
  exec E args level (evs ++ evs')
  = fold_left (step E args) evs' (exec E args level evs).
Proof. unfold exec. by rewrite fold_left_app. Qed.

(** What [react] leaves alone, whatever the state. *)
Lemma react_keeps w :
  credentials (react E args w) = credentials w
  /\ fields (react E args w) = fields w
  /\ all (react E args w) = all w
  /\ npmlog_level (react E args w) = npmlog_level w
  /\ from_output (handled (react E args w)) = from_output (handled w)
  /\ close_calls (calls (react E args w)) = close_calls (calls w)
  /\ interface_calls (calls (react E args w)) = interface_calls (calls w).
Proof.
  unfold react. destruct (chain w); try done.
  destruct (all w) as [|[c f]|r] eqn:Hall; [by rewrite Hall|..].
  - destruct (construct E (constructorOptions args c f)); proj;
      unfold from_output, close_calls, interface_calls;
      rewrite ?omap_app, ?Hall; cbn; by rewrite ?app_nil_r.
  - proj. unfold from_output. rewrite omap_app, Hall. cbn.
    by rewrite app_nil_r.
Qed.

Lemma react_grows w :
  stderr w `prefix_of` stderr (react E args w)
  /\ handled w `prefix_of` handled (react E args w)
  /\ (exitCode w = Some 1%Z -> exitCode (react E args w) = Some 1%Z).
Proof.
  unfold react. destruct (chain w); try done.
  destruct (all w) as [|[c f]|r]; try done.
  - destruct (construct E (constructorOptions args c f)); proj; [|done].
    split; [by apply prefix_app_r|]. split; [by apply prefix_app_r|done].
  - proj. split; [by apply prefix_app_r|]. split; [by apply prefix_app_r|done].
Qed.

Lemma react_terminal w :
  chain w <> Joining -> react E args w = w.
Proof. unfold react. by destruct (chain w). Qed.

Lemma step_grows w ev :
  stderr w `prefix_of` stderr (step E args w ev)
  /\ handled w `prefix_of` handled (step E args w ev)
  /\ (exitCode w = Some 1%Z -> exitCode (step E args w ev) = Some 1%Z)
  /\ (credentials w <> Pending ->
        credentials (step E args w ev) = credentials w)
  /\ (fields w <> Pending -> fields (step E args w ev) = fields w).
Proof.
  destruct ev as [r|e|r|e]; cbn [step].
  - destruct (credentials w) eqn:Hc; try done.
    set (w1 := set_all _ _).
    destruct (react_grows w1) as (H1 & H2 & H3).
    destruct (react_keeps w1) as (_ & H5 & _).
    split; [done|]. split; [done|]. split; [done|]. split; [done|].
    intros _. by rewrite H5.
  - destruct (Args.template args); [|done].
    destruct (getFields_on args e (fields w)) as [p cs] eqn:Hon.
    destruct (is_pending (fields w)) eqn:Hp.
    + set (w1 := set_all _ _).
      destruct (react_grows w1) as (H1 & H2 & H3).
      destruct (react_keeps w1) as (H4 & _).
      split; [done|]. split; [done|]. split; [done|].
      split; [intros _; by rewrite H4|]. intros Hn. by destruct (fields w).
    + proj. split; [done|]. split; [done|]. split; [done|]. split; [done|].
      intros _. destruct e; cbn in Hon; injection Hon as <- _;
        by destruct (fields w).
  - destruct (chain w); try done. destruct r as [r|]; [|done]. proj.
    split; [by apply prefix_app_r|]. split; [by apply prefix_app_r|done].
  - proj. split; [by apply prefix_app_r|]. split; [by apply prefix_app_r|done].
Qed.

Lemma fold_grows evs w :
  stderr w `prefix_of` stderr (fold_left (step E args) evs w)
  /\ handled w `prefix_of` handled (fold_left (step E args) evs w)
  /\ (exitCode w = Some 1%Z ->
        exitCode (fold_left (step E args) evs w) = Some 1%Z)
  /\ (credentials w <> Pending ->
        credentials (fold_left (step E args) evs w) = credentials w)
  /\ (fields w <> Pending ->
        fields (fold_left (step E args) evs w) = fields w).
Proof.
  revert w; induction evs as [|ev evs IH]; intros w; [done|].
  cbn [fold_left].
  destruct (step_grows w ev) as (H1 & H2 & H3 & H4 & H5).
  destruct (IH (step E args w ev)) as (I1 & I2 & I3 & I4 & I5).
  split; [by etrans|]. split; [by etrans|]. split; [auto|]. split.
  - intros Hc. rewrite I4; [auto|]. by rewrite H4.
  - intros Hf. rewrite I5; [auto|]. by rewrite H5.
Qed.

Lemma from_output_step w ev :
  from_output (handled (step E args w ev))
  = from_output (handled w) ++ map One (output_errors [ev]).
Proof.
  destruct ev as [r|e|r|e]; cbn [step output_errors omap map];
    rewrite ?app_nil_r.
  - destruct (credentials w); try done.
    by destruct (react_keeps (set_all (all_after_credentials (all w)
      match r with inl e => Rejected e | inr c => Fulfilled c end (fields w))
      (set_credentials
         match r with inl e => Rejected e | inr c => Fulfilled c end w)))
      as (_ & _ & _ & _ & -> & _).
  - destruct (Args.template args); [|done].
    destruct (getFields_on args e (fields w)) as [p cs].
    destruct (is_pending (fields w)); [|done].
    by destruct (react_keeps (set_all (all_after_fields (all w)
      (credentials w) p) (add_calls cs (set_fields p w))))
      as (_ & _ & _ & _ & -> & _).
  - destruct (chain w); try done. destruct r as [r|]; [|done]. proj.
    unfold from_output. rewrite omap_app. cbn. by rewrite app_nil_r.
  - proj. unfold from_output. by rewrite omap_app.
Qed.

Lemma from_output_fold evs w :
  from_output (handled (fold_left (step E args) evs w))
  = from_output (handled w) ++ map One (output_errors evs).
Proof.
  revert w; induction evs as [|ev evs IH]; intros w.
  - cbn. by rewrite app_nil_r.
  - cbn [fold_left]. rewrite IH, from_output_step, <- app_assoc.
    f_equal. rewrite <- map_app. f_equal. unfold output_errors.
    by rewrite <- omap_app.
Qed.

Lemma from_output_exec level evs :
  from_output (handled (exec E args level evs)) = map One (output_errors evs).
Proof.
  unfold exec. rewrite from_output_fold.
  unfold start. destruct (resolveCredentials args) as [cp c1].
  destruct (getFields_open args) as [fp c2].
  by destruct (react_keeps
    {| credentials := cp; fields := fp; all := all_after_fields Pending cp fp;
       chain := Joining; calls := c1 ++ c2; stderr := []; exitCode := None;
       handled := []; npmlog_level := level |})
    as (_ & _ & _ & _ & -> & _).
Qed.

End Evolution.

Lemma handled_nil_iff (hs : list (Origin * reason)) :
  hs = [] <-> caught hs = [] /\ from_output hs = [].
Proof.
  split; [by intros ->|]. intros [Hc Ho].
  destruct hs as [|[[|] r] hs]; [done|by cbn in Hc|by cbn in Ho].
Qed.

Lemma caught_nil_iff E args level w :
  Inv E args level w ->
  caught (handled w) = [] <-> forall r, chain w <> Caught r.
Proof.
  intros [[_ Hc _ _ _ _ _] _]. unfold chain_ok in Hc.
  destruct (chain w) as [| | |r].
  - destruct Hc as (_ & _ & ->). by split.
  - destruct Hc as (_ & _ & _ & _ & _ & _ & ->). by split.
  - destruct Hc as (_ & _ & _ & _ & _ & _ & ->). by split.
  - destruct Hc as (-> & _). split; [done|]. intros H. by destruct (H r).
Qed.

Lemma step_terminal E args w ev :
  terminal (chain w) = true ->
  chain (step E args w ev) = chain w
  /\ export_calls (calls (step E args w ev)) = export_calls (calls w)
  /\ run_calls (calls (step E args w ev)) = run_calls (calls w)
  /\ caught (handled (step E args w ev)) = caught (handled w).
Proof.
  intros Ht.
  assert (Hn : chain w <> Joining) by (by destruct (chain w)).
  destruct ev as [r|e|r|e]; cbn [step].
  - destruct (credentials w); try done. by rewrite react_terminal.
  - destruct (Args.template args); [|done].
    destruct (getFields_on args e (fields w)) as [p cs] eqn:Hon.
    assert (Hcs : export_calls cs = [] /\ run_calls cs = []).
    { destruct e; cbn in Hon; by injection Hon as <- <-. }
    destruct Hcs as [H1 H2].
    destruct (is_pending (fields w)); [rewrite react_terminal by done|];
      proj; by rewrite export_calls_app, run_calls_app, H1, H2, !app_nil_r.
  - destruct (chain w) eqn:Hch; done.
  - proj. rewrite caught_app. cbn. by rewrite app_nil_r.
Qed.

Lemma fold_terminal E args evs w :
  terminal (chain w) = true ->
  chain (fold_left (step E args) evs w) = chain w
  /\ export_calls (calls (fold_left (step E args) evs w))
     = export_calls (calls w)
  /\ run_calls (calls (fold_left (step E args) evs w)) = run_calls (calls w)
  /\ caught (handled (fold_left (step E args) evs w)) = caught (handled w).
Proof.
  revert w; induction evs as [|ev evs IH]; intros w Ht; [done|].
  cbn [fold_left].
  destruct (step_terminal E args w ev Ht) as (H1 & H2 & H3 & H4).
  destruct (IH (step E args w ev)) as (I1 & I2 & I3 & I4);
    [by rewrite H1|].
  by rewrite I1, I2, I3, I4.
Qed.

(** X5: every ['error'] event of the output stream reaches the error
    handler, once and in order of arrival, whatever the state of the export;
    handling it writes one line and sets exit code 1 but leaves both
    resolutions, the chain and the calls made so far untouched, so the export
    is not stopped by it. *)
Theorem output_errors_reported (E : Env) (args : Args.t) (level : jsval)
  (evs : list Event) :
  let w := exec E args level evs in
  from_output (handled w) = map One (output_errors evs)
  /\ (forall e,
        let w' := exec E args level (evs ++ [OutputError e]) in
        credentials w' = credentials w /\ fields w' = fields w
        /\ chain w' = chain w /\ calls w' = calls w
        /\ stderr w' = stderr w ++ [logError E level e]
        /\ exitCode w' = Some 1%Z).
Proof.
  intros w. split; [apply from_output_exec|].
  intros e w'. unfold w'. rewrite exec_app. cbn [fold_left step]. fold w.
  destruct (exec_inv E args level evs) as [HI _]. fold w in HI.
  proj. by rewrite (inv_level _ _ _ _ HI).
Qed.

Lemma output_errors_reported_witness :
  let evs := [OutputError (mkError "EPIPE"); CredentialsSettled (inr ∅);
              OutputError (mkError "EIO"); RunSettled None] in
  let w := exec Sample.env (Sample.args_of Sample.bare) (VStr "info") evs in
  from_output (handled w) = [One (mkError "EPIPE"); One (mkError "EIO")]
  /\ chain w = Completed /\ exitCode w = Some 1%Z.
Proof.
  intros evs w. split; [|by vm_compute].
  apply (output_errors_reported Sample.env (Sample.args_of Sample.bare)
           (VStr "info") evs).
Defined.

(** X6: a run only accumulates.  The calls made, the lines on stderr and the
    invocations of the error handler are never taken back; an exit code of 1
    is never reset; and a resolution that has settled keeps its outcome
    whatever is delivered afterwards. *)
Theorem run_only_grows (E : Env) (args : Args.t) (level : jsval)
  (evs evs' : list Event) :
  let w := exec E args level evs in
  let w' := exec E args level (evs ++ evs') in
  calls w `prefix_of` calls w'
  /\ stderr w `prefix_of` stderr w'
  /\ handled w `prefix_of` handled w'
  /\ (exitCode w = Some 1%Z -> exitCode w' = Some 1%Z)
  /\ (credentials w <> Pending -> credentials w' = credentials w)
  /\ (fields w <> Pending -> fields w' = fields w).
Proof.
  intros w w'. unfold w'. rewrite exec_app. fold w.
  split; [apply calls_fold|apply fold_grows].
Qed.

Lemma run_only_grows_witness :
  let evs := [Rl (RlLine "id,code")] in
  let evs' := [Rl (RlError Sample.read_error); Rl (RlLine "other")] in
  let args := Sample.args_of Sample.with_template in
  fields (exec Sample.env args (VStr "info") evs) <> Pending
  /\ fields (exec Sample.env args (VStr "info") (evs ++ evs'))
     = Fulfilled (Some ["id"; "code"]).
Proof.
  intros evs evs' args.
  assert (Hf : fields (exec Sample.env args (VStr "info") evs) <> Pending)
    by (by vm_compute).
  split; [exact Hf|].
  destruct (run_only_grows Sample.env args (VStr "info") evs evs')
    as (_ & _ & _ & _ & _ & H).
  rewrite (H Hf). reflexivity.
Defined.

(** X8: once [run] has fulfilled or a rejection has reached [catch], the
    chain stays where it is: no later event moves it, builds an export
    engine, invokes [run] or reaches [catch] again. *)
Theorem terminal_chain_is_final (E : Env) (args : Args.t) (level : jsval)
  (evs evs' : list Event) :
  let w := exec E args level evs in
  let w' := exec E args level (evs ++ evs') in
  terminal (chain w) = true ->
  chain w' = chain w
  /\ export_calls (calls w') = export_calls (calls w)
  /\ run_calls (calls w') = run_calls (calls w)
  /\ caught (handled w') = caught (handled w).
Proof.
  intros w w' Ht. unfold w'. rewrite exec_app. fold w.
  by apply fold_terminal.
Qed.

Lemma terminal_chain_is_final_witness :
  let evs := [CredentialsSettled (inl (One Sample.auth_error))] in
  let evs' := [CredentialsSettled (inr ∅); RunSettled None;
               Rl (RlLine "id")] in
  let args := Sample.args_of Sample.bare in
  terminal (chain (exec Sample.env args (VStr "info") evs)) = true
  /\ chain (exec Sample.env args (VStr "info") (evs ++ evs'))
     = Caught (One Sample.auth_error).
Proof.
  intros evs evs' args. split; [reflexivity|].
  destruct (terminal_chain_is_final Sample.env args (VStr "info") evs evs'
              eq_refl) as (H & _).
  rewrite H. reflexivity.
Defined.

(** ** When the export is run *)

(** X9: [run] is invoked at most once, always on [args.output].  It has been
    invoked exactly when both resolutions are fulfilled and the constructor
    of the export engine did not throw; when the constructor throws, [run] is
    never invoked, the thrown value reaches [catch] and the exit code
    is 1. *)
Theorem run_invoked_iff (E : Env) (args : Args.t) (level : jsval)
  (evs : list Event) :
  let w := exec E args level evs in
  (run_calls (calls w) = [] \/ run_calls (calls w) = [Args.output args])
  /\ (run_calls (calls w) = [Args.output args]
      <-> exists c f, credentials w = Fulfilled c /\ fields w = Fulfilled f
                      /\ construct E (constructorOptions args c f) = None)
  /\ (forall c f r,
        credentials w = Fulfilled c -> fields w = Fulfilled f ->
        construct E (constructorOptions args c f) = Some r ->
        run_calls (calls w) = [] /\ chain w = Caught r
        /\ exitCode w = Some 1%Z).
Proof.
  intros w. pose proof (exec_inv E args level evs) as HI. fold w in HI.
  pose proof (run_calls_spec E args level w HI) as Hr.
  destruct HI as [[Hj Hc _ _ _ Hx _] Hp]. unfold joined, chain_ok in *.
  assert (Hboth : forall c f,
            credentials w = Fulfilled c -> fields w = Fulfilled f ->
            all w = Fulfilled (c, f)).
  { intros c f Hcr Hf. rewrite Hcr, Hf in Hj.
    destruct (all w) as [|[c' f']|r']; [by destruct Hj as (_ & _ & ?)| |].
    - destruct Hj as [Hc' Hf']. by injection Hc' as <-; injection Hf' as <-.
    - by destruct Hj. }
  split; [|split].
  - destruct Hr as [?|[? _]]; auto.
  - split.
    + intros Hrun. destruct Hr as [Hr|[_ Hr]]; [by rewrite Hr in Hrun|done].
    + intros (c & f & Hcr & Hf & Hcon).
      pose proof (Hboth c f Hcr Hf) as Hall. rewrite Hall in Hc, Hp.
      destruct (chain w).
      * by specialize (Hp eq_refl).
      * by destruct Hc as (_ & _ & _ & _ & _ & ? & _).
      * by destruct Hc as (_ & _ & _ & _ & _ & ? & _).
      * destruct Hc as (_ & _ & _ & [[Hs _]|[_ ?]]); [|done].
        by rewrite Hcon in Hs.
  - intros c f r Hcr Hf Hcon.
    pose proof (Hboth c f Hcr Hf) as Hall. rewrite Hall in Hc, Hp.
    destruct (chain w) as [| | |r'].
    + by specialize (Hp eq_refl).
    + destruct Hc as (c' & f' & Heq & _ & Hn & _).
      injection Heq as <- <-. by rewrite Hcon in Hn.
    + destruct Hc as (c' & f' & Heq & _ & Hn & _).
      injection Heq as <- <-. by rewrite Hcon in Hn.
    + destruct Hc as (Hh & _ & _ & [[Hs Hrun]|[Hn _]]).
      * rewrite Hcon in Hs. injection Hs as <-. split; [done|]. split; [done|].
        rewrite Hx. destruct (handled w); [done|done].
      * by rewrite Hcon in Hn.
Qed.

Lemma run_invoked_iff_witness :
  let args := Sample.args_of Sample.with_token in
  let w := exec MoreSamples.refusing args (VStr "info") [] in
  credentials w = Fulfilled ∅ /\ fields w = Fulfilled None
  /\ construct MoreSamples.refusing (constructorOptions args ∅ None)
     = Some (One (mkError "bad options"))
  /\ run_calls (calls w) = []
  /\ chain w = Caught (One (mkError "bad options")).
Proof.
  intros args w.
  assert (Hc : credentials w = Fulfilled ∅) by reflexivity.
  assert (Hf : fields w = Fulfilled None) by reflexivity.
  split; [exact Hc|]. split; [exact Hf|]. split; [reflexivity|].
  destruct (run_invoked_iff MoreSamples.refusing args (VStr "info") [])
    as (_ & _ & H).
  destruct (H ∅ None (One (mkError "bad options")) Hc Hf eq_refl)
    as (H1 & H2 & _).
  split; [exact H1|exact H2].
Defined.

(** X10: while both resolutions are pending, the order in which the
    credential exchange answers and the first template line arrives makes no
    difference: both orders lead to the same state, with the same calls in
    the same order. *)
Theorem resolutions_commute (E : Env) (args : Args.t) (level : jsval)
  (evs : list Event) (c : jsobject) (line : string) :
  let w := exec E args level evs in
  credentials w = Pending -> fields w = Pending ->
  exec E args level (evs ++ [CredentialsSettled (inr c); Rl (RlLine line)])
  = exec E args level (evs ++ [Rl (RlLine line); CredentialsSettled (inr c)]).
Proof.
  intros w Hcr Hf. rewrite !exec_app. fold w.
  pose proof (exec_inv E args level evs) as HI. fold w in HI.
  destruct HI as [[Hj Hc _ Ht _ _ _] Hp]. unfold joined, chain_ok in *.
  rewrite Hcr, Hf in Hj.
  assert (Hall : all w = Pending).
  { destruct (all w) as [|[? ?]|?]; [done|by destruct Hj|by destruct Hj]. }
  rewrite Hall in Hc.
  assert (Hch : chain w = Joining).
  { destruct (chain w); [done|..].
    - by destruct Hc as (? & ? & ? & _).
    - by destruct Hc as (? & ? & ? & _).
    - by destruct Hc as (_ & _ & []). }
  destruct (Args.template args) as [input|] eqn:Htpl;
    [|by rewrite Ht in Hf].
  clear Hj Hc Hp Ht.
  destruct w as [wc wf wa wch wcalls werr wexit wh wl].
  cbn in Hcr, Hf, Hall, Hch. subst wc wf wa wch.
  cbn [fold_left step credentials fields]. rewrite Htpl.
  cbn. rewrite ?Htpl. cbn.
  by destruct (construct E _).
Qed.

Lemma resolutions_commute_witness :
  let args := Sample.args_of Sample.with_template in
  credentials (exec Sample.env args (VStr "info") [Rl RlClosed]) = Pending
  /\ fields (exec Sample.env args (VStr "info") [Rl RlClosed]) = Pending
  /\ exec Sample.env args (VStr "info")
       ([Rl RlClosed] ++ [CredentialsSettled (inr ∅); Rl (RlLine "id,code")])
     = exec Sample.env args (VStr "info")
         ([Rl RlClosed] ++ [Rl (RlLine "id,code"); CredentialsSettled (inr ∅)]).
Proof.
  intros args. split; [reflexivity|]. split; [reflexivity|].
  apply (resolutions_commute Sample.env args (VStr "info") [Rl RlClosed]);
    reflexivity.
Defined.

(** ** The field list read from a template *)

Section Tokens.
Import JsString.

Lemma prefix_nil_r p : String.prefix p "" = true -> p = "".
Proof. by destruct p. Qed.

Lemma prefix_cons c p s :
  String.prefix (String c p) (String c s) = String.prefix p s.
Proof. cbn [String.prefix]. by destruct (Ascii.ascii_dec c c). Qed.

Lemma prefix_trans p q s :
  String.prefix p q = true -> String.prefix q s = true ->
  String.prefix p s = true.
Proof.
  revert q s; induction p as [|a p IH]; intros q s Hpq Hqs; [by destruct s|].
  destruct q as [|b q]; [done|]. destruct s as [|c s]; [done|].
  cbn [String.prefix] in *.
  destruct (Ascii.ascii_dec a b) as [->|]; [|done].
  destruct (Ascii.ascii_dec b c) as [->|]; [|done].
  by apply (IH q s).
Qed.

(** The first token of a split is a prefix of the string. *)
Lemma split_scan_head sep s tok toks :
  split_scan sep 0 s = tok :: toks -> String.prefix tok s = true.
Proof.
  revert tok toks; induction s as [|c s IH]; intros tok toks.
  - cbn. by intros [= <- _].
  - cbn [split_scan]. destruct (String.prefix sep (String c s)).
    + by intros [= <- _].
    + destruct (split_scan sep 0 s) as [|tok' toks'] eqn:Hs.
      * by apply split_scan_not_nil in Hs.
      * intros [= <- _]. rewrite prefix_cons. by apply (IH tok' toks').
Qed.

Lemma includes_nil sep : sep <> "" -> includes sep "" = false.
Proof. by destruct sep. Qed.

Lemma split_scan_excludes sep s k :
  sep <> "" ->
  Forall (fun tok => includes sep tok = false) (split_scan sep k s).
Proof.
  intros Hsep. revert k; induction s as [|c s IH]; intros k.
  - cbn. repeat constructor. by apply includes_nil.
  - destruct k as [|k]; [|apply IH]. cbn [split_scan].
    destruct (String.prefix sep (String c s)) eqn:Hp.
    + constructor; [by apply includes_nil|apply IH].
    + specialize (IH 0).
      destruct (split_scan sep 0 s) as [|tok toks] eqn:Hs.
      * by apply split_scan_not_nil in Hs.
      * apply Forall_cons in IH as [Htok Htoks]. constructor; [|done].
        cbn [includes]. rewrite Htok, orb_false_r.
        destruct (String.prefix sep (String c tok)) eqn:Hpt; [|done].
        rewrite <- Hp. symmetry.
        apply (prefix_trans _ (String c tok)); [done|].
        rewrite prefix_cons. by apply (split_scan_head sep s tok toks).
Qed.

Lemma split_well_formed s sep :
  sep <> "" ->
  split s sep <> []
  /\ Forall (fun tok => includes sep tok = false) (split s sep)
  /\ join sep (split s sep) = s.
Proof.
  intros Hsep. split; [|split].
  - unfold split. destruct sep; [done|]. apply split_scan_not_nil.
  - unfold split. destruct sep; [done|]. by apply split_scan_excludes.
  - by apply join_split.
Qed.

End Tokens.

Lemma getFields_run_first_line a evs cs f :
  (getFields_run a evs (Pending, cs)).1 = Fulfilled f ->
  exists line,
    head (line_events evs) = Some line
    /\ f = Some (JsString.split_val line (Args.delimiter a)).
Proof.
  revert cs; induction evs as [|ev evs IH]; intros cs; [done|].
  cbn [getFields_run fst snd]. destruct ev as [l|e|]; cbn [getFields_on settle].
  - rewrite getFields_run_settled by done. intros [= <-]. by exists l.
  - by rewrite getFields_run_settled.
  - apply IH.
Qed.

(** X11: with a template and a non-empty textual delimiter, the field list
    an export engine is built with is the split of the first line the reader
    emitted.  It is never empty (an empty first line gives the single empty
    name), none of its names contains the delimiter, and joining the names
    with the delimiter gives the line back. *)
Theorem template_fields_well_formed (E : Env) (args : Args.t) (level : jsval)
  (evs : list Event) (input : ReadStream) (d : string) (opts : Options.t) :
  Args.template args = Some input ->
  Args.delimiter args = VStr d -> d <> "" ->
  NewDiscountCodeExport opts ∈ calls (exec E args level evs) ->
  exists line toks,
    head (line_events (rl_events evs)) = Some line
    /\ Options.fields opts = Some toks
    /\ toks = JsString.split line d
    /\ toks <> []
    /\ Forall (fun tok => includes d tok = false) toks
    /\ JsString.join d toks = line.
Proof.
  intros Htpl Hd Hne Hin. apply elem_of_export_calls in Hin.
  rewrite (export_calls_spec E args level) in Hin by apply exec_inv.
  destruct (credentials _) as [|c|]; try by apply elem_of_nil in Hin.
  destruct (fields _) as [|f|] eqn:Hf; try by apply elem_of_nil in Hin.
  apply list_elem_of_singleton in Hin. subst opts.
  rewrite fields_exec in Hf. unfold getFields, getFields_open in Hf.
  rewrite Htpl in Hf.
  apply getFields_run_first_line in Hf as (line & Hhead & ->).
  rewrite Hd. cbn [JsString.split_val ToString].
  exists line, (JsString.split line d).
  destruct (split_well_formed line d Hne) as (H1 & H2 & H3). by repeat split.
Qed.

Lemma template_fields_well_formed_witness :
  let args := Sample.args_of Sample.with_template in
  let evs := [Rl RlClosed; Rl (RlLine ""); CredentialsSettled (inr ∅)] in
  let opts := constructorOptions args ∅ (Some [""]) in
  Args.template args = Some (FileReadStream "template.csv")
  /\ Args.delimiter args = VStr ","
  /\ NewDiscountCodeExport opts ∈ calls (exec Sample.env args (VStr "info") evs)
  /\ exists line toks,
       head (line_events (rl_events evs)) = Some line
       /\ Options.fields opts = Some toks /\ toks <> [].
Proof.
  intros args evs opts.
  assert (Hin : NewDiscountCodeExport opts
                ∈ calls (exec Sample.env args (VStr "info") evs)).
  { vm_compute. do 3 apply list_elem_of_further. apply list_elem_of_here. }
  split; [reflexivity|]. split; [reflexivity|]. split; [exact Hin|].
  destruct (template_fields_well_formed Sample.env args (VStr "info") evs
              (FileReadStream "template.csv") "," opts eq_refl eq_refl)
    as (line & toks & H1 & H2 & _ & H3 & _); [done|exact Hin|].
  by exists line, toks.
Defined.

(** ** The template reader *)

Section Reader.
Variables (E : Env) (args : Args.t).

Lemma reader_calls_step w ev :
  close_calls (calls (step E args w ev))
  = close_calls (calls w) ++ closes_on args ev
  /\ interface_calls (calls (step E args w ev)) = interface_calls (calls w).
Proof.
  unfold closes_on.
  destruct ev as [cr|e|rr|e]; cbn [step].
  - destruct (Args.template args); rewrite app_nil_r;
      (destruct (credentials w); [|done..]);
      set (w1 := set_all _ _);
      by destruct (react_keeps E args w1) as (_ & _ & _ & _ & _ & -> & ->).
  - destruct (Args.template args); [|by rewrite app_nil_r].
    destruct (getFields_on args e (fields w)) as [p cs] eqn:Hon.
    assert (Hcs : close_calls cs = match e with RlLine _ => [tt] | _ => [] end
                  /\ interface_calls cs = []).
    { destruct e; cbn in Hon; by injection Hon as <- <-. }
    destruct Hcs as [H1 H2].
    destruct (is_pending (fields w)).
    + set (w1 := set_all _ _).
      destruct (react_keeps E args w1) as (_ & _ & _ & _ & _ & -> & ->).
      unfold w1. proj. unfold close_calls, interface_calls in *.
      rewrite !omap_app, H1, H2, app_nil_r. by destruct e.
    + proj. unfold close_calls, interface_calls in *.
      rewrite !omap_app, H1, H2, app_nil_r. by destruct e.
  - destruct (Args.template args); rewrite app_nil_r;
      (destruct (chain w); try done); by destruct rr.
  - by destruct (Args.template args); rewrite app_nil_r.
Qed.

Lemma closes_on_length evs :
  length (flat_map (closes_on args) evs)
  = match Args.template args with
    | Some _ => length (line_events (rl_events evs))
    | None => 0
    end.
Proof.
  unfold closes_on.
  induction evs as [|ev evs IH]; [by destruct (Args.template args)|].
  cbn [flat_map]. rewrite length_app, IH.
  destruct (Args.template args) as [input|]; [|done].
  by destruct ev as [cr|[l|e|]|rr|e].
Qed.

Lemma reader_calls_fold evs w :
  close_calls (calls (fold_left (step E args) evs w))
  = close_calls (calls w) ++ flat_map (closes_on args) evs
  /\ interface_calls (calls (fold_left (step E args) evs w))
     = interface_calls (calls w).
Proof.
  revert w; induction evs as [|ev evs IH]; intros w.
  - cbn. by rewrite app_nil_r.
  - cbn [fold_left flat_map]. destruct (IH (step E args w ev)) as [-> ->].
    destruct (reader_calls_step w ev) as [-> ->]. by rewrite app_assoc.
Qed.

End Reader.

(** ** Options left untyped *)


(** * The script as a whole *)

(** ** What reaches a script that has started *)

Lemma deliver_world E args w sigs :
  script_world (deliver E args w sigs)
  = Some (fold_left (step E args) (delivered sigs) w).
Proof.
  revert w; induction sigs as [|[ev|e] sigs IH]; intros w; [done| |done].
  cbn [deliver delivered fold_left]. apply IH.
Qed.

Lemma deliver_live E args w sigs :
  log_stream_errors sigs = [] ->
  deliver E args w sigs = Live (fold_left (step E args) (delivered sigs) w).
Proof.
  revert w; induction sigs as [|[ev|e] sigs IH]; intros w H; [done| |done].
  cbn [deliver delivered fold_left]. by apply IH.
Qed.

Lemma deliver_killed E args w sigs :
  log_stream_errors sigs <> [] ->
  exists e, deliver E args w sigs
            = Killed e (fold_left (step E args) (delivered sigs) w).
Proof.
  revert w; induction sigs as [|[ev|e] sigs IH]; intros w H; [done| |].
  - cbn [deliver delivered fold_left]. by apply IH.
  - by exists e.
Qed.

Lemma delivered_all evs : delivered (map Deliver evs) = evs.
Proof. induction evs as [|ev evs IH]; [done|]. cbn. by rewrite IH. Qed.

Lemma log_stream_inr args s :
  log_stream args = inr s ->
  s <> Args.output args
  /\ (Args.output args = Stdout ->
        Args.logFile args = VStr (ToString (Args.logFile args))
        /\ s = FileWriteStream (Args.logFile args))
  /\ (Args.output args <> Stdout -> s = Stdout).
Proof.
  unfold log_stream, createWriteStream.
  destruct (decide (Args.output args = Stdout)) as [Ho|Ho].
  - destruct (Args.logFile args) as [|b|n|p]; try done.
    intros [= <-]. rewrite Ho. by repeat split.
  - intros [= <-]. by repeat split.
Qed.

Lemma log_stream_inl args e :
  log_stream args = inl e ->
  Args.output args = Stdout
  /\ (forall p, Args.logFile args <> VStr p)
  /\ name e = "TypeError".
Proof.
  unfold log_stream, createWriteStream.
  destruct (decide (Args.output args = Stdout)) as [Ho|Ho]; [|done].
  destruct (Args.logFile args) as [|b|n|p]; try done;
    intros [= <-]; by repeat split.
Qed.

Lemma script_started E args level sigs s :
  log_stream args = inr s ->
  script_world (script E args level sigs)
  = Some (exec E args level (delivered sigs))
  /\ script_calls (script E args level sigs)
     = calls (exec E args level (delivered sigs)).
Proof.
  intros Hs. unfold script. rewrite Hs.
  pose proof (deliver_world E args (start E args level) sigs) as Hw.
  fold (exec E args level (delivered sigs)) in Hw. split; [done|].
  by destruct (deliver E args (start E args level) sigs);
    cbn in Hw; try injection Hw as ->.
Qed.

Lemma script_thrown E args level sigs e :
  log_stream args = inl e ->
  script E args level sigs = Thrown e.
Proof. intros He. unfold script. by rewrite He. Qed.

(** ** Credential resolution in the script *)

(** C2, amended: with a truthy access token the credentials are the empty
    object, available at once; the exchange is never invoked, and the token
    reaches the export engine as its own [accessToken] option, next to the
    empty credentials.  With no access token, or a falsy one, resolution is
    the exchange [getCredentials(projectKey)]: it is invoked once, at
    start-up, in every run that gets past the creation of the log stream,
    and not at all in a run that line 139 ends. *)
Theorem resolveCredentials_by_token (E : Env) (args : Args.t) (level : jsval)
  (sigs : list Signal) :
  let s := script E args level sigs in
  (truthy (Args.accessToken args) = true ->
     resolveCredentials args = (Fulfilled ∅, [])
     /\ (forall k, GetCredentials k ∉ script_calls s)
     /\ (forall w, script_world s = Some w -> credentials w = Fulfilled ∅)
     /\ (forall opts, NewDiscountCodeExport opts ∈ script_calls s ->
           ApiConfig.credentials (Options.apiConfig opts) = ∅
           /\ Options.accessToken opts = Args.accessToken args))
  /\ (truthy (Args.accessToken args) = false ->
     resolveCredentials args
     = (Pending, [GetCredentials (Args.projectKey args)])
     /\ credential_calls (script_calls s)
        = match log_stream args with
          | inl _ => []
          | inr _ => [Args.projectKey args]
          end).
Proof.
  intros s. unfold s.
  destruct (log_stream args) as [e|ls] eqn:Hls.
  - rewrite (script_thrown _ _ _ _ _ Hls). cbn [script_calls script_world].
    split; intros Htok; unfold resolveCredentials; rewrite Htok;
      [|done].
    split; [done|]. split; [intros k Hk; by apply elem_of_nil in Hk|].
    split; [done|]. intros opts Hin. by apply elem_of_nil in Hin.
  - destruct (script_started E args level sigs ls Hls) as [Hw Hc].
    rewrite Hw, Hc. set (w := exec E args level (delivered sigs)).
    pose proof (exec_inv E args level (delivered sigs)) as HI. fold w in HI.
    pose proof (export_calls_spec E args level w HI) as He.
    destruct HI as [[_ _ Hcr _ _ _ _] _]. unfold credentials_ok in Hcr.
    split; intros Htok; rewrite Htok in Hcr; unfold resolveCredentials;
      rewrite Htok; [|done].
    destruct Hcr as [Hcw Hk]. split; [done|]. split; [|split].
    + intros k Hin. apply elem_of_credential_calls in Hin.
      rewrite Hk in Hin. by apply elem_of_nil in Hin.
    + by intros w' [= <-].
    + intros opts Hin. apply elem_of_export_calls in Hin.
      rewrite He, Hcw in Hin.
      destruct (fields w); try by apply elem_of_nil in Hin.
      apply list_elem_of_singleton in Hin. by subst opts.
Qed.

Lemma resolveCredentials_by_token_witness :
  truthy (Args.accessToken (Sample.args_of Sample.with_token)) = true
  /\ truthy (Args.accessToken (Sample.args_of Sample.bare)) = false
  /\ truthy (Args.accessToken (Sample.args_of ScriptSamples.numeric_log))
     = false
  /\ resolveCredentials (Sample.args_of Sample.with_token) = (Fulfilled ∅, [])
  /\ credential_calls
       (script_calls (script Sample.env (Sample.args_of Sample.bare)
                        (VStr "info") []))
     = [VStr "shop"]
  /\ credential_calls
       (script_calls
          (script Sample.env (Sample.args_of ScriptSamples.numeric_log)
             (VStr "info") [Deliver (CredentialsSettled (inr ∅))]))
     = [].
Proof.
  split; [reflexivity|]. split; [reflexivity|]. split; [reflexivity|].
  split; [|split].
  - apply (resolveCredentials_by_token Sample.env
             (Sample.args_of Sample.with_token) (VStr "info") []).
    reflexivity.
  - apply (resolveCredentials_by_token Sample.env
             (Sample.args_of Sample.bare) (VStr "info") []). reflexivity.
  - apply (resolveCredentials_by_token Sample.env
             (Sample.args_of ScriptSamples.numeric_log) (VStr "info")
             [Deliver (CredentialsSettled (inr ∅))]). reflexivity.
Defined.

(** ** The join before the export, in the script *)

Lemma startup_calls E args level evs :
  (if truthy (Args.accessToken args) then []
   else [GetCredentials (Args.projectKey args)])
  ++ match Args.template args with
     | Some input => [CreateInterface input]
     | None => []
     end
  `prefix_of` calls (exec E args level evs).
Proof.
  pose proof (calls_exec E args level evs) as H.
  unfold resolveCredentials, getFields_open in H.
  by destruct (truthy (Args.accessToken args)), (Args.template args).
Qed.

(** C4: the export engine is built, and [run] invoked, only once both the
    credentials and the fields have been resolved successfully, and with the
    resolved values; whenever both have been resolved it has been built,
    whatever the order in which they settled; if either is rejected it is
    never built nor run.  In a run that gets past the creation of the log
    stream both resolutions are started at start-up, before either has
    settled: the exchange is invoked unless a token is given, and a reader is
    opened on the template when there is one; a run that line 139 ends
    starts neither. *)
Theorem export_only_after_both_resolved (E : Env) (args : Args.t)
  (level : jsval) (sigs : list Signal) :
  let s := script E args level sigs in
  (forall w, script_world s = Some w ->
     (forall opts, NewDiscountCodeExport opts ∈ calls w ->
        exists c f, credentials w = Fulfilled c /\ fields w = Fulfilled f
                    /\ opts = constructorOptions args c f)
     /\ (forall c f, credentials w = Fulfilled c -> fields w = Fulfilled f ->
           export_calls (calls w) = [constructorOptions args c f])
     /\ (is_rejected (credentials w) || is_rejected (fields w) = true ->
           export_calls (calls w) = [] /\ run_calls (calls w) = [])
     /\ (forall o, Run o ∈ calls w ->
           o = Args.output args
           /\ exists opts, NewDiscountCodeExport opts ∈ calls w
                           /\ construct E opts = None))
  /\ match log_stream args with
     | inl _ => script_calls s = []
     | inr _ =>
         (if truthy (Args.accessToken args) then []
          else [GetCredentials (Args.projectKey args)])
         ++ match Args.template args with
            | Some input => [CreateInterface input]
            | None => []
            end
         `prefix_of` script_calls s
     end.
Proof.
  intros s. unfold s. split.
  - intros w Hw.
    assert (HI : Inv E args level w).
    { destruct (log_stream args) as [e|ls] eqn:Hls.
      - by rewrite (script_thrown _ _ _ _ _ Hls) in Hw.
      - destruct (script_started E args level sigs ls Hls) as [Hw' _].
        rewrite Hw' in Hw. injection Hw as <-. apply exec_inv. }
    pose proof (export_calls_spec E args level w HI) as He.
    pose proof (run_calls_spec E args level w HI) as Hr.
    split; [|split; [|split]].
    + intros opts Hin. apply elem_of_export_calls in Hin. rewrite He in Hin.
      destruct (credentials w) as [|c|]; try by apply elem_of_nil in Hin.
      destruct (fields w) as [|f|]; try by apply elem_of_nil in Hin.
      apply list_elem_of_singleton in Hin. by exists c, f.
    + intros c f Hc Hf. by rewrite He, Hc, Hf.
    + intros Hrej. split.
      * rewrite He. destruct (credentials w), (fields w); done.
      * destruct Hr as [Hr|(_ & c & f & Hc & Hf & _)]; [done|].
        by rewrite Hc, Hf in Hrej.
    + intros o Hin. apply elem_of_run_calls in Hin.
      destruct Hr as [Hr|(Hr & c & f & Hc & Hf & Hcon)].
      * rewrite Hr in Hin. by apply elem_of_nil in Hin.
      * rewrite Hr in Hin. apply list_elem_of_singleton in Hin.
        split; [done|].
        exists (constructorOptions args c f). split; [|done].
        apply elem_of_export_calls. rewrite He, Hc, Hf.
        by apply list_elem_of_singleton.
  - destruct (log_stream args) as [e|ls] eqn:Hls.
    + by rewrite (script_thrown _ _ _ _ _ Hls).
    + destruct (script_started E args level sigs ls Hls) as [_ ->].
      apply startup_calls.
Qed.

Lemma export_only_after_both_resolved_witness :
  let args := Sample.args_of Sample.with_template in
  let first_credentials :=
    exec Sample.env args (VStr "info")
      [CredentialsSettled (inr ∅); Rl (RlLine "id,name,code")] in
  let failed :=
    exec Sample.env args (VStr "info")
      [CredentialsSettled (inl (One Sample.auth_error));
       Rl (RlLine "id,name,code")] in
  script_world
    (script Sample.env args (VStr "info")
       [Deliver (CredentialsSettled (inr ∅));
        Deliver (Rl (RlLine "id,name,code"))])
  = Some first_credentials
  /\ script_world
       (script Sample.env args (VStr "info")
          [Deliver (CredentialsSettled (inl (One Sample.auth_error)));
           Deliver (Rl (RlLine "id,name,code"))])
     = Some failed
  /\ export_calls (calls first_credentials)
     = [constructorOptions args ∅ (Some ["id"; "name"; "code"])]
  /\ is_rejected (credentials failed) || is_rejected (fields failed) = true
  /\ export_calls (calls failed) = [] /\ run_calls (calls failed) = [].
Proof.
  intros args first_credentials failed.
  assert (H1 : script_world
                 (script Sample.env args (VStr "info")
                    [Deliver (CredentialsSettled (inr ∅));
                     Deliver (Rl (RlLine "id,name,code"))])
               = Some first_credentials) by reflexivity.
  assert (H2 : script_world
                 (script Sample.env args (VStr "info")
                    [Deliver (CredentialsSettled
                                (inl (One Sample.auth_error)));
                     Deliver (Rl (RlLine "id,name,code"))])
               = Some failed) by reflexivity.
  split; [exact H1|]. split; [exact H2|].
  destruct (export_only_after_both_resolved Sample.env args (VStr "info")
              [Deliver (CredentialsSettled (inr ∅));
               Deliver (Rl (RlLine "id,name,code"))]) as [Hok _].
  destruct (Hok first_credentials H1) as (_ & Hboth & _).
  destruct (export_only_after_both_resolved Sample.env args (VStr "info")
              [Deliver (CredentialsSettled (inl (One Sample.auth_error)));
               Deliver (Rl (RlLine "id,name,code"))]) as [Hbad _].
  destruct (Hbad failed H2) as (_ & _ & Hrej & _).
  split; [apply Hboth; reflexivity|]. split; [reflexivity|].
  apply Hrej. reflexivity.
Defined.

(** ** The batch size in the script *)

Lemma override_batchSize_args E given args level v :
  argv E given = inr (args, level) ->
  exists args',
    argv E (override Key.batchSize v given) = inr (args', level)
    /\ Args.batchSize args' = match v with VUndefined => VNum 500 | _ => v end
    /\ Args.accessToken args' = Args.accessToken args
    /\ Args.projectKey args' = Args.projectKey args
    /\ Args.template args' = Args.template args
    /\ Args.output args' = Args.output args
    /\ Args.logFile args' = Args.logFile args.
Proof.
  intros Hargv.
  pose proof (argv_inr _ _ _ _ Hargv)
    as (Hv & Hl & _ & Ho & _ & _ & Ha & Hp & _ & _ & Hf & Ht).
  assert (Hex : exists args',
            argv E (override Key.batchSize v given) = inr (args', level)).
  { unfold argv in *. rewrite validate_override_batchSize, Hv.
    rewrite !(value_override_ne _ Key.batchSize) by done.
    destruct (match value given Key.template with
              | VUndefined => inr None
              | _ => _
              end) as [e|t]; [done|].
    clear Hargv. rewrite Hl. unfold coerce_logLevel. by eexists. }
  destruct Hex as [args' Hargv']. exists args'. split; [done|].
  pose proof (argv_inr _ _ _ _ Hargv')
    as (_ & _ & _ & Ho' & _ & _ & Ha' & Hp' & _ & Hb' & Hf' & Ht').
  rewrite (value_override_ne _ Key.batchSize) in Ho' by done.
  rewrite (value_override_ne _ Key.batchSize) in Ha' by done.
  rewrite (value_override_ne _ Key.batchSize) in Hp' by done.
  rewrite (value_override_ne _ Key.batchSize) in Hf' by done.
  rewrite (value_override_ne _ Key.batchSize) in Ht' by done.
  rewrite Ho, Ha, Hp, Hf, Ht. split; [|done].
  rewrite Hb'. unfold value, override. cbn. by destruct v.
Qed.

(** C6, amended: the script does not validate the batch size.  The value
    typed on the command line (500 when none is typed) becomes
    [args.batchSize] as it is; a command line that is accepted stays accepted
    for every other batch size, zero and negative numbers included, and the
    start of the script is the same for all of them: whether line 139 ends
    it, and otherwise the invocation of the exchange and the opening of the
    template reader, do not depend on the batch size.  The export engine is
    built with the value as its [batchSize] option. *)
Theorem batchSize_passed_unchecked (E : Env) (given : Supplied)
  (args : Args.t) (level : jsval) :
  argv E given = inr (args, level) ->
  Args.batchSize args = value given Key.batchSize
  /\ (forall v, exists args',
        argv E (override Key.batchSize v given) = inr (args', level)
        /\ Args.batchSize args'
           = match v with VUndefined => VNum 500 | _ => v end
        /\ log_stream args' = log_stream args
        /\ forall sigs,
             match log_stream args with
             | inl _ => script_calls (script E args' level sigs) = []
             | inr _ =>
                 (if truthy (Args.accessToken args) then []
                  else [GetCredentials (Args.projectKey args)])
                 ++ match Args.template args with
                    | Some input => [CreateInterface input]
                    | None => []
                    end
                 `prefix_of` script_calls (script E args' level sigs)
             end)
  /\ (forall sigs opts,
        NewDiscountCodeExport opts ∈ script_calls (script E args level sigs) ->
        Options.batchSize opts = Args.batchSize args).
Proof.
  intros Hargv. pose proof (argv_inr _ _ _ _ Hargv) as (_ & _ & H).
  split; [by destruct H as (_ & _ & _ & _ & _ & _ & _ & ? & _)|]. split.
  - intros v.
    destruct (override_batchSize_args E given args level v Hargv)
      as (args' & Hargv' & Hb & Ha & Hp & Ht & Ho & Hf).
    exists args'. split; [done|]. split; [done|].
    assert (Hls : log_stream args' = log_stream args).
    { unfold log_stream. by rewrite Ho, Hf. }
    split; [done|]. intros sigs. rewrite <- Hls.
    destruct (log_stream args') as [e|ls] eqn:Hls'.
    + by rewrite (script_thrown _ _ _ _ _ Hls').
    + destruct (script_started E args' level sigs ls Hls') as [_ ->].
      rewrite <- Ha, <- Hp, <- Ht. apply startup_calls.
  - intros sigs opts Hin.
    destruct (log_stream args) as [e|ls] eqn:Hls.
    + rewrite (script_thrown _ _ _ _ _ Hls) in Hin.
      by apply elem_of_nil in Hin.
    + destruct (script_started E args level sigs ls Hls) as [_ Hc].
      rewrite Hc in Hin.
      by destruct (export_call_options _ _ _ _ _ Hin) as (c & f & ->).
Qed.

Lemma batchSize_passed_unchecked_witness :
  argv Sample.env Sample.bare
  = inr (Sample.args_of Sample.bare, VStr "info")
  /\ Args.batchSize (Sample.args_of Sample.bare) = VNum 500
  /\ exists args',
       argv Sample.env (override Key.batchSize (VNum (-3)) Sample.bare)
       = inr (args', VStr "info")
       /\ Args.batchSize args' = VNum (-3)
       /\ [GetCredentials (VStr "shop")]
          `prefix_of` script_calls (script Sample.env args' (VStr "info") []).
Proof.
  split; [reflexivity|].
  destruct (batchSize_passed_unchecked Sample.env Sample.bare
              (Sample.args_of Sample.bare) (VStr "info") eq_refl)
    as (Hb & Hany & _).
  split; [exact Hb|].
  destruct (Hany (VNum (-3))) as (args' & H1 & H2 & _ & H4).
  exists args'. split; [exact H1|]. split; [exact H2|]. exact (H4 []).
Defined.

(** ** Log stream and data sink *)

(** C9, at a concrete command line: [-p shop --logFile /dev/stdout].  The
    data go to [process.stdout] and the logs to a write stream on
    [/dev/stdout]: two stream objects, one destination, and the export runs
    on it. *)
Lemma logs_written_into_data :
  let args := Sample.args_of ScriptSamples.log_to_stdout in
  argv Sample.env ScriptSamples.log_to_stdout = inr (args, VStr "info")
  /\ Args.output args = Stdout
  /\ log_stream args = inr (FileWriteStream (VStr "/dev/stdout"))
  /\ device ScriptSamples.alias (FileWriteStream (VStr "/dev/stdout"))
     = device ScriptSamples.alias (Args.output args)
  /\ run_calls
       (script_calls
          (script Sample.env args (VStr "info")
             [Deliver (CredentialsSettled (inr ∅))]))
     = [Stdout].
Proof. vm_compute. repeat split. Qed.

(** C9, amended: in every run that gets past line 139 the log stream and the
    data sink are distinct stream objects.  When the output is [stdout]
    (typed or by default) the data go to [process.stdout] and the logs to a
    write stream on the log file, which has to be text: otherwise line 139
    throws and the script ends there.  With any other output the data go to
    a write stream on the output path and the logs to [process.stdout].
    [run] is only given the data sink.  The script does not look at where a
    path leads: the two streams write to different destinations exactly when
    the path of the file stream is not one that leads to the standard
    output. *)
Theorem log_stream_differs_from_output (E : Env) (given : Supplied)
  (args : Args.t) (level : jsval) (sigs : list Signal)
  (alias : string -> bool) :
  argv E given = inr (args, level) ->
  match log_stream args with
  | inl e =>
      value given Key.output = VStr "stdout"
      /\ (forall p, value given Key.logFile <> VStr p)
      /\ script E args level sigs = Thrown e
  | inr ls =>
      ls <> Args.output args
      /\ (value given Key.output = VStr "stdout" ->
            Args.output args = Stdout
            /\ ls = FileWriteStream (Args.logFile args)
            /\ exists p, value given Key.logFile = VStr p)
      /\ (value given Key.output <> VStr "stdout" ->
            Args.output args
            = FileWriteStream (VStr (ToString (value given Key.output)))
            /\ ls = Stdout)
      /\ (forall o, Run o ∈ script_calls (script E args level sigs) ->
            o = Args.output args /\ o <> ls)
      /\ (device alias ls = device alias (Args.output args)
          <-> exists p,
                alias p = true
                /\ (ls = FileWriteStream (VStr p)
                    \/ Args.output args = FileWriteStream (VStr p)))
  end.
Proof.
  intros Hargv.
  pose proof (argv_inr _ _ _ _ Hargv)
    as (_ & _ & _ & Hout & _ & _ & _ & _ & _ & _ & Hlog & _).
  assert (Hstd : Args.output args = Stdout
                 <-> value given Key.output = VStr "stdout").
  { rewrite Hout. unfold coerce_output.
    destruct (decide (value given Key.output <> VStr "stdout")) as [Hn|Hn].
    - by split.
    - split; [|done]. intros _.
      by destruct (decide (value given Key.output = VStr "stdout")). }
  destruct (log_stream args) as [e|ls] eqn:Hls.
  - destruct (log_stream_inl _ _ Hls) as (Ho & Hf & _).
    split; [by apply Hstd|]. split; [by rewrite <- Hlog|].
    by apply script_thrown.
  - destruct (log_stream_inr _ _ Hls) as (Hne & Hs1 & Hs2).
    split; [done|]. split; [|split; [|split]].
    + intros Hv. apply Hstd in Hv. destruct (Hs1 Hv) as [Hp ->].
      split; [done|]. split; [done|]. rewrite <- Hlog. by eexists.
    + intros Hv. split.
      * rewrite Hout. unfold coerce_output.
        by destruct (decide (value given Key.output <> VStr "stdout")).
      * apply Hs2. intros Ho. by apply Hstd in Ho.
    + intros o Hin.
      destruct (script_started E args level sigs ls Hls) as [_ Hc].
      rewrite Hc in Hin. apply elem_of_run_calls in Hin.
      destruct (run_calls_spec E args level _
                  (exec_inv E args level (delivered sigs))) as [Hr|[Hr _]];
        rewrite Hr in Hin.
      * by apply elem_of_nil in Hin.
      * apply list_elem_of_singleton in Hin. subst o. split; [done|].
        congruence.
    + destruct (decide (Args.output args = Stdout)) as [Ho|Ho].
      * destruct (Hs1 Ho) as [Hp ->]. rewrite Ho, Hp. cbn [device].
        split.
        -- destruct (alias (ToString (Args.logFile args))) eqn:Ha; [|done].
           intros _. eexists. split; [exact Ha|by left].
        -- intros (p & Ha & [[= <-]|?]); [by rewrite Ha|done].
      * rewrite (Hs2 Ho).
        assert (Hfile : Args.output args
                        = FileWriteStream
                            (VStr (ToString (value given Key.output)))).
        { rewrite Hout. unfold coerce_output.
          destruct (decide (value given Key.output <> VStr "stdout"));
            [done|]. by rewrite Hout in Ho; unfold coerce_output in Ho;
            destruct (decide (value given Key.output <> VStr "stdout")). }
        rewrite Hfile. cbn [device]. split.
        -- destruct (alias (ToString (value given Key.output))) eqn:Ha;
             [|done].
           intros _. eexists. split; [exact Ha|by right].
        -- intros (p & Ha & [?|[= <-]]); [done|by rewrite Ha].
Qed.

Lemma log_stream_differs_from_output_witness :
  argv Sample.env Sample.to_file
  = inr (Sample.args_of Sample.to_file, VStr "info")
  /\ log_stream (Sample.args_of Sample.to_file) = inr Stdout
  /\ Args.output (Sample.args_of Sample.to_file)
     = FileWriteStream (VStr "codes.json")
  /\ argv Sample.env ScriptSamples.numeric_log
     = inr (Sample.args_of ScriptSamples.numeric_log, VStr "info")
  /\ exists e,
       log_stream (Sample.args_of ScriptSamples.numeric_log) = inl e
       /\ script Sample.env (Sample.args_of ScriptSamples.numeric_log)
            (VStr "info") [Deliver (CredentialsSettled (inr ∅))]
          = Thrown e.
Proof.
  assert (H1 : argv Sample.env Sample.to_file
               = inr (Sample.args_of Sample.to_file, VStr "info"))
    by reflexivity.
  assert (H2 : argv Sample.env ScriptSamples.numeric_log
               = inr (Sample.args_of ScriptSamples.numeric_log, VStr "info"))
    by reflexivity.
  pose proof (log_stream_differs_from_output Sample.env Sample.to_file
                (Sample.args_of Sample.to_file) (VStr "info") []
                ScriptSamples.alias H1) as Hfile.
  pose proof (log_stream_differs_from_output Sample.env
                ScriptSamples.numeric_log
                (Sample.args_of ScriptSamples.numeric_log) (VStr "info")
                [Deliver (CredentialsSettled (inr ∅))]
                ScriptSamples.alias H2) as Hthrow.
  split; [exact H1|].
  destruct (log_stream (Sample.args_of Sample.to_file)) as [e|ls] eqn:Hls;
    [by vm_compute in Hls|].
  destruct Hfile as (_ & _ & Hf & _).
  destruct Hf as [Hout ->]; [by vm_compute|].
  split; [reflexivity|]. split; [exact Hout|]. split; [exact H2|].
  destruct (log_stream (Sample.args_of ScriptSamples.numeric_log))
    as [e|ls'] eqn:Hls'; [|by vm_compute in Hls'].
  exists e. split; [reflexivity|]. apply Hthrow.
Defined.

(** ** The first line of a template *)

Section FirstLine.
Import JsString.

Lemma chars_spec s :
  Forall (fun t => String.length t = 1) (chars s) /\ join "" (chars s) = s.
Proof.
  induction s as [|c s [IH1 IH2]]; [done|]. cbn [chars]. split.
  - by constructor.
  - unfold join in *. cbn [String.concat].
    destruct (chars s) eqn:Hs; [by cbn in IH2; subst s|].
    by rewrite IH2.
Qed.

Lemma pretty_N_go_not_empty x s : s <> "" -> pretty_N_go x s <> "".
Proof.
  revert s. induction (N.lt_wf_0 x) as [x _ IH]; intros s Hs.
  destruct (decide (x = 0)%N) as [->|Hx]; [by rewrite pretty_N_go_0|].
  rewrite pretty_N_go_step by lia. apply IH; [|done].
  apply N.div_lt; lia.
Qed.

Lemma pretty_Z_not_empty (n : Z) : pretty n <> "".
Proof.
  destruct n as [|p|p]; [done| |done].
  unfold pretty, pretty_Z, pretty, pretty_positive, pretty, pretty_N.
  destruct (decide (N.pos p = 0)%N); [done|].
  rewrite pretty_N_go_step by lia. by apply pretty_N_go_not_empty.
Qed.

Lemma getFields_run_closes a evs p cs :
  length (close_calls (getFields_run a evs (p, cs)).2)
  = length (close_calls cs) + length (line_events evs)
  /\ interface_calls (getFields_run a evs (p, cs)).2 = interface_calls cs.
Proof.
  revert p cs; induction evs as [|ev evs IH]; intros p cs.
  - cbn [getFields_run snd line_events omap length].
    by rewrite Nat.add_0_r.
  - cbn [getFields_run fst snd].
    destruct (getFields_on a ev p) as [p' cs'] eqn:Hon.
    destruct (IH p' (cs ++ cs')) as [-> ->].
    unfold close_calls, interface_calls, line_events.
    rewrite !omap_app, length_app.
    destruct ev; cbn in Hon; injection Hon as <- <-;
      cbn; rewrite ?app_nil_r; (split; [lia|done]).
Qed.

End FirstLine.

(** C3: when the first thing the template reader emits is the line [L],
    field resolution returns [L] split on the configured delimiter, in
    order, whatever is emitted afterwards, and this is the field list an
    export engine is built with.  Split on a non-empty separator (a text, or
    the decimal form of a number, or [true] or [false]), the names are the
    pieces of [L] between the occurrences of the separator: there is at
    least one, none contains the separator, and joined with it they give [L]
    back.  Split on the empty text, an ASCII line gives its characters; with
    no separator it gives the line itself.  A line that comes after the first
    does not change the result, but it is not left alone either: the
    listener stays registered and closes the reader once more for every
    further line. *)
Theorem getFields_first_line (E : Env) (args : Args.t) (level : jsval)
  (input : ReadStream) (L : string) (rest : list RlEvent) :
  Args.template args = Some input ->
  let result := getFields args (RlLine L :: rest) in
  exists toks,
    result.1 = Fulfilled (Some toks)
    /\ (forall d, Args.delimiter args = VStr d -> d <> "" ->
          toks <> []
          /\ Forall (fun t => includes d t = false) toks
          /\ JsString.join d toks = L)
    /\ (forall n, Args.delimiter args = VNum n -> (Z.abs n < 2 ^ 53)%Z ->
          toks <> []
          /\ Forall (fun t => includes (pretty n) t = false) toks
          /\ JsString.join (pretty n) toks = L)
    /\ (forall b, Args.delimiter args = VBool b ->
          toks <> []
          /\ Forall (fun t => includes (if b then "true" else "false") t
                              = false) toks
          /\ JsString.join (if b then "true" else "false") toks = L)
    /\ (Args.delimiter args = VStr "" -> ascii_only L = true ->
          Forall (fun t => String.length t = 1) toks
          /\ JsString.join "" toks = L)
    /\ (Args.delimiter args = VUndefined -> toks = [L])
    /\ (Args.delimiter args = VStr "," -> L = "id,name,code" ->
          toks = ["id"; "name"; "code"])
    /\ interface_calls result.2 = [input]
    /\ length (close_calls result.2) = S (length (line_events rest))
    /\ (forall sigs opts,
          rl_events (delivered sigs) = RlLine L :: rest ->
          NewDiscountCodeExport opts
            ∈ script_calls (script E args level sigs) ->
          Options.fields opts = Some toks).
Proof.
  intros Htpl result.
  exists (JsString.split_val L (Args.delimiter args)).
  assert (H1 : result.1
               = Fulfilled (Some (JsString.split_val L (Args.delimiter args)))).
  { unfold result, getFields, getFields_open. rewrite Htpl.
    cbn [getFields_run getFields_on fst snd settle].
    by rewrite getFields_run_settled. }
  split; [done|].
  split; [intros d -> Hd; cbn [JsString.split_val ToString];
          by apply split_well_formed|].
  split; [intros n -> _; cbn [JsString.split_val ToString];
          apply split_well_formed, pretty_Z_not_empty|].
  split; [intros b ->; cbn [JsString.split_val ToString];
          destruct b; by apply split_well_formed|].
  split; [intros -> _; apply chars_spec|].
  split; [by intros ->|].
  split; [by intros -> ->|].
  split; [|split].
  - unfold result, getFields, getFields_open. rewrite Htpl.
    cbn [getFields_run getFields_on fst snd].
    by destruct (getFields_run_closes args rest
                   (settle Pending
                      (Fulfilled
                         (Some (JsString.split_val L (Args.delimiter args)))))
                   ([CreateInterface input] ++ [RlClose])) as [_ ->].
  - unfold result, getFields, getFields_open. rewrite Htpl.
    cbn [getFields_run getFields_on fst snd].
    by destruct (getFields_run_closes args rest
                   (settle Pending
                      (Fulfilled
                         (Some (JsString.split_val L (Args.delimiter args)))))
                   ([CreateInterface input] ++ [RlClose])) as [-> _].
  - intros sigs opts Hev Hin.
    destruct (log_stream args) as [e|ls] eqn:Hls.
    { rewrite (script_thrown _ _ _ _ _ Hls) in Hin.
      by apply elem_of_nil in Hin. }
    destruct (script_started E args level sigs ls Hls) as [_ Hc].
    rewrite Hc in Hin. apply elem_of_export_calls in Hin.
    rewrite (export_calls_spec E args level) in Hin by apply exec_inv.
    rewrite fields_exec, Hev in Hin. fold result in Hin. rewrite H1 in Hin.
    destruct (credentials _); try by apply elem_of_nil in Hin.
    apply list_elem_of_singleton in Hin. by subst opts.
Qed.

Lemma getFields_first_line_witness :
  let args := Sample.args_of Sample.with_template in
  let rest := [RlLine "1,summer,SUN10"; RlLine "2,winter,ICE5"; RlClosed] in
  let result := getFields args (RlLine "id,name,code" :: rest) in
  Args.template args = Some (FileReadStream "template.csv")
  /\ Args.delimiter args = VStr ","
  /\ exists toks,
       result.1 = Fulfilled (Some toks)
       /\ toks = ["id"; "name"; "code"]
       /\ length (close_calls result.2) = 3.
Proof.
  intros args rest result. split; [reflexivity|]. split; [reflexivity|].
  destruct (getFields_first_line Sample.env args (VStr "info")
              (FileReadStream "template.csv") "id,name,code" rest eq_refl)
    as (toks & H1 & _ & _ & _ & _ & _ & H2 & _ & H3 & _).
  exists toks. split; [exact H1|]. split; [by apply H2|exact H3].
Defined.

(** ** What the script writes to stderr *)

Lemma script_world_inv E args level sigs w :
  script_world (script E args level sigs) = Some w ->
  w = exec E args level (delivered sigs) /\ Inv E args level w.
Proof.
  intros Hw. destruct (log_stream args) as [e|ls] eqn:Hls.
  - by rewrite (script_thrown _ _ _ _ _ Hls) in Hw.
  - destruct (script_started E args level sigs ls Hls) as [Hw' _].
    rewrite Hw' in Hw. injection Hw as <-. split; [done|apply exec_inv].
Qed.

(** X3: what the script has written to stderr is one write for each error
    handed to the error handler, in the order they were handed over, the
    elements of an array one by one, and nothing else; no newline is
    written.  Every write starts with [ERR: ].  At level [verbose] it
    carries the rendering of the error, at any other level its message, or
    its name when the message is empty. *)
Theorem stderr_writes (E : Env) (args : Args.t) (level : jsval)
  (sigs : list Signal) (w : World) :
  script_world (script E args level sigs) = Some w ->
  Forall (fun t => String.prefix "ERR: " t = true) (stderr w)
  /\ length (stderr w) = length (handled_errors (handled w))
  /\ (level = VStr "verbose" ->
        stderr w
        = map (fun e => "ERR: " +:+ render E e) (handled_errors (handled w)))
  /\ (level <> VStr "verbose" ->
        stderr w
        = map (fun e => "ERR: " +:+ (if String.eqb (message e) ""
                                     then name e else message e))
              (handled_errors (handled w))).
Proof.
  intros Hw. destruct (script_world_inv _ _ _ _ _ Hw) as [_ [HI _]].
  assert (Hs : stderr w = map (logError E level) (handled_errors (handled w))).
  { rewrite (inv_stderr _ _ _ _ HI). unfold handled_errors.
    by rewrite map_flat_map. }
  split; [|split; [|split]].
  - rewrite Hs. apply Forall_forall. intros l (e & -> & _)%list_elem_of_fmap.
    apply logError_prefix.
  - by rewrite Hs, length_map.
  - intros ->. rewrite Hs. apply map_ext. intros e. unfold logError.
    by destruct (decide (VStr "verbose" = VStr "verbose")).
  - intros Hne. rewrite Hs. apply map_ext. intros e. unfold logError.
    destruct (decide (level = VStr "verbose")); [done|]. cbn [truthy].
    by destruct (String.eqb (message e) "").
Qed.

Lemma stderr_writes_witness :
  let sigs := [Deliver (CredentialsSettled (inr ∅));
               Deliver (RunSettled
                          (Some (Many [mkError "page 2";
                                       {| name := "TypeError";
                                          message := "" |}])))] in
  let w := exec Sample.env (Sample.args_of Sample.to_file) (VStr "info")
             (delivered sigs) in
  script_world (script Sample.env (Sample.args_of Sample.to_file)
                  (VStr "info") sigs) = Some w
  /\ VStr "info" <> VStr "verbose"
  /\ stderr w = ["ERR: page 2"; "ERR: TypeError"].
Proof.
  intros sigs w.
  assert (Hw : script_world (script Sample.env (Sample.args_of Sample.to_file)
                               (VStr "info") sigs) = Some w) by reflexivity.
  assert (Hl : VStr "info" <> VStr "verbose") by done.
  split; [exact Hw|]. split; [exact Hl|].
  destruct (stderr_writes Sample.env (Sample.args_of Sample.to_file)
              (VStr "info") sigs w Hw) as (_ & _ & _ & Hp).
  exact (Hp Hl).
Defined.

(** X4: the log level is taken over by the logger while the arguments are
    parsed and is itself read back as undefined; the level in force is the
    one typed, [info] when none was typed.  When [verbose] was typed every
    write to stderr carries the rendering of the error; when anything else
    was typed, or nothing, every write carries the message of the error, or
    its name when the message is empty. *)
Theorem logLevel_governs_run (E : Env) (given : Supplied) (args : Args.t)
  (level : jsval) (sigs : list Signal) (w : World) :
  argv E given = inr (args, level) ->
  script_world (script E args level sigs) = Some w ->
  Args.logLevel args = VUndefined
  /\ npmlog_level w = value given Key.logLevel
  /\ (given Key.logLevel = VUndefined -> npmlog_level w = VStr "info")
  /\ (given Key.logLevel = VStr "verbose" ->
        stderr w
        = map (fun e => "ERR: " +:+ render E e) (handled_errors (handled w)))
  /\ (given Key.logLevel <> VStr "verbose" ->
        stderr w
        = map (fun e => "ERR: " +:+ (if String.eqb (message e) ""
                                     then name e else message e))
              (handled_errors (handled w))).
Proof.
  intros Hargv Hw.
  pose proof (argv_inr _ _ _ _ Hargv) as (_ & Hl & _).
  pose proof (argv_inr_connection _ _ _ _ Hargv) as (_ & _ & _ & Hu).
  destruct (script_world_inv _ _ _ _ _ Hw) as [_ [HI _]].
  pose proof (inv_level _ _ _ _ HI) as Hlev.
  assert (Hs : stderr w = map (logError E level) (handled_errors (handled w))).
  { rewrite (inv_stderr _ _ _ _ HI). unfold handled_errors.
    by rewrite map_flat_map. }
  split; [done|]. split; [by rewrite Hlev|]. split; [|split].
  - intros Hg. rewrite Hlev, Hl. unfold value. by rewrite Hg.
  - intros Hg.
    assert (Hverb : level = VStr "verbose").
    { rewrite Hl. unfold value. by rewrite Hg. }
    rewrite Hs. apply map_ext. intros e. unfold logError. rewrite Hverb.
    by destruct (decide (VStr "verbose" = VStr "verbose")).
  - intros Hg.
    assert (Hverb : level <> VStr "verbose").
    { rewrite Hl. unfold value. by destruct (given Key.logLevel). }
    rewrite Hs. apply map_ext. intros e. unfold logError.
    destruct (decide (level = VStr "verbose")); [done|]. cbn [truthy].
    by destruct (String.eqb (message e) "").
Qed.

Lemma logLevel_governs_run_witness :
  let args := Sample.args_of MoreSamples.verbose in
  let sigs := [Deliver (CredentialsSettled (inl (One Sample.auth_error)))] in
  let w := exec Sample.env args (VStr "verbose") (delivered sigs) in
  argv Sample.env MoreSamples.verbose = inr (args, VStr "verbose")
  /\ script_world (script Sample.env args (VStr "verbose") sigs) = Some w
  /\ Args.logLevel args = VUndefined
  /\ npmlog_level w = VStr "verbose".
Proof.
  intros args sigs w.
  assert (Hargv : argv Sample.env MoreSamples.verbose
                  = inr (args, VStr "verbose")) by reflexivity.
  assert (Hw : script_world (script Sample.env args (VStr "verbose") sigs)
               = Some w) by reflexivity.
  split; [exact Hargv|]. split; [exact Hw|].
  destruct (logLevel_governs_run Sample.env MoreSamples.verbose args
              (VStr "verbose") sigs w Hargv Hw) as (Hu & Hl & _).
  split; [exact Hu|exact Hl].
Defined.

(** ** The exit status *)

Lemma exitCode_exec E args level evs :
  let w := exec E args level evs in
  (exitCode w = None \/ exitCode w = Some 1%Z)
  /\ (exitCode w = None
      <-> output_errors evs = [] /\ forall r, chain w <> Caught r).
Proof.
  intros w. pose proof (exec_inv E args level evs) as HI. fold w in HI.
  pose proof (caught_nil_iff _ _ _ _ HI) as Hcaught.
  pose proof (from_output_exec E args level evs) as Hout. fold w in Hout.
  destruct HI as [HP _]. pose proof (inv_exit _ _ _ _ HP) as Hx.
  split; [rewrite Hx; destruct (handled w); auto|].
  rewrite Hx. rewrite <- Hcaught.
  transitivity (handled w = []); [by destruct (handled w)|].
  rewrite handled_nil_iff, Hout. split.
  - intros [Hc Ho]. split; [|done]. by destruct (output_errors evs).
  - intros [-> Hc]. by split.
Qed.

(** X7: the process ends with status 0 or 1.  It ends with 0 exactly when
    the log stream could be created, the log stream emitted no error (it has
    no listener, so the first one ends the process), the output stream
    emitted no error, and no rejection reached [catch].  In particular a run
    that was not cut short and whose export completed ends with 1 if, and
    only if, the output stream reported an error. *)
Theorem exit_status_zero_iff (E : Env) (args : Args.t) (level : jsval)
  (sigs : list Signal) :
  let s := script E args level sigs in
  (exit_status s = 0 \/ exit_status s = 1)%Z
  /\ (exit_status s = 0%Z
      <-> (exists ls, log_stream args = inr ls)
          /\ log_stream_errors sigs = []
          /\ output_errors (delivered sigs) = []
          /\ forall w r, script_world s = Some w -> chain w <> Caught r)
  /\ (forall w, s = Live w -> chain w = Completed ->
        (exit_status s = 1%Z <-> output_errors (delivered sigs) <> [])).
Proof.
  intros s. subst s. unfold script.
  destruct (log_stream args) as [e|ls] eqn:Hls.
  { split; [by right|]. split; [|done].
    split; [done|]. by intros [[ls [=]] _]. }
  destruct (exitCode_exec E args level (delivered sigs)) as [Hor Hiff].
  unfold exec in Hor, Hiff.
  destruct (decide (log_stream_errors sigs = [])) as [Hle|Hle].
  - rewrite (deliver_live _ _ _ _ Hle). cbn [exit_status script_world].
    set (w := fold_left (step E args) (delivered sigs) (start E args level))
      in *.
    split; [destruct Hor as [->| ->]; auto|]. split.
    + split.
      * intros H0. assert (Hn : exitCode w = None).
        { destruct Hor as [Hn|Hn]; [done|]. by rewrite Hn in H0. }
        apply Hiff in Hn as [Ho Hc]. split; [by exists ls|].
        split; [done|]. split; [done|]. by intros w' r [= <-].
      * intros (_ & _ & Ho & Hc).
        assert (Hn : exitCode w = None).
        { apply Hiff. split; [done|]. intros r. by apply Hc. }
        by rewrite Hn.
    + intros w' [= <-] Hch. split.
      * intros H1 Ho. assert (Hn : exitCode w = None).
        { apply Hiff. split; [done|]. intros r. by rewrite Hch. }
        by rewrite Hn in H1.
      * intros Ho. destruct Hor as [Hn| ->]; [|done].
        apply Hiff in Hn as [Ho' _]. done.
  - destruct (deliver_killed E args (start E args level) sigs Hle)
      as [e ->].
    split; [by right|]. split; [|done].
    split; [done|]. by intros (_ & Hl & _).
Qed.

Lemma exit_status_zero_iff_witness :
  let sigs := [Deliver (CredentialsSettled (inr ∅));
               LogStreamError {| name := "Error";
                                 message := "EACCES: permission denied" |};
               Deliver (RunSettled None)] in
  let s := script Sample.env (Sample.args_of Sample.bare) (VStr "info") sigs in
  log_stream_errors sigs <> [] /\ exit_status s = 1%Z.
Proof.
  intros sigs s.
  assert (Hl : log_stream_errors sigs <> []) by done.
  split; [exact Hl|].
  destruct (exit_status_zero_iff Sample.env (Sample.args_of Sample.bare)
              (VStr "info") sigs) as ([H0|H1] & Hiff & _).
  - apply Hiff in H0 as (_ & Hnil & _). by destruct Hl.
  - exact H1.
Defined.

(** ** The reader in the script *)

Lemma reader_calls_exec E args level evs :
  let w := exec E args level evs in
  interface_calls (calls w)
  = match Args.template args with Some input => [input] | None => [] end
  /\ length (close_calls (calls w))
     = match Args.template args with
       | Some _ => length (line_events (rl_events evs))
       | None => 0
       end.
Proof.
  intros w. unfold w, exec.
  destruct (reader_calls_fold E args evs (start E args level)) as [-> ->].
  rewrite length_app, closes_on_length.
  assert (Hstart : close_calls (calls (start E args level)) = []
                   /\ interface_calls (calls (start E args level))
                      = match Args.template args with
                        | Some input => [input]
                        | None => []
                        end).
  { unfold start, resolveCredentials, getFields_open.
    destruct (truthy (Args.accessToken args));
      destruct (Args.template args) as [input|];
      match goal with
      | |- context [react E args ?w0] =>
          by destruct (react_keeps E args w0)
            as (_ & _ & _ & _ & _ & -> & ->)
      end. }
  destruct Hstart as [-> ->]. done.
Qed.

(** X12: in a run that gets past the creation of the log stream a readline
    interface is opened exactly once when a template is given, on the
    template stream, and never otherwise; [rl.close()] is called once for
    every line the interface emits while the process lives, the first one
    and any that follows it, and is never called for an error or at the end
    of the stream.  A run that the creation of the log stream ends opens no
    reader and closes none. *)
Theorem reader_opened_and_closed (E : Env) (args : Args.t) (level : jsval)
  (sigs : list Signal) :
  let s := script E args level sigs in
  interface_calls (script_calls s)
  = match log_stream args, Args.template args with
    | inr _, Some input => [input]
    | _, _ => []
    end
  /\ length (close_calls (script_calls s))
     = match log_stream args, Args.template args with
       | inr _, Some _ => length (line_events (rl_events (delivered sigs)))
       | _, _ => 0
       end.
Proof.
  intros s. subst s. destruct (log_stream args) as [e|ls] eqn:Hls.
  - by rewrite (script_thrown _ _ _ _ _ Hls).
  - destruct (script_started E args level sigs ls Hls) as [_ ->].
    apply reader_calls_exec.
Qed.

Lemma reader_opened_and_closed_witness :
  let args := Sample.args_of Sample.with_template in
  let s := script Sample.env args (VStr "info")
             [Deliver (Rl (RlLine "id,code")); Deliver (Rl (RlLine "1,A"));
              Deliver (Rl (RlLine "2,B")); Deliver (Rl RlClosed)] in
  interface_calls (script_calls s) = [FileReadStream "template.csv"]
  /\ length (close_calls (script_calls s)) = 3.
Proof.
  intros args s.
  apply (reader_opened_and_closed Sample.env args (VStr "info")
           [Deliver (Rl (RlLine "id,code")); Deliver (Rl (RlLine "1,A"));
            Deliver (Rl (RlLine "2,B")); Deliver (Rl RlClosed)]).
Defined.

(** ** A run with nothing to wait for *)

Lemma deliver_snoc E args w sigs ev :
  deliver E args w (sigs ++ [Deliver ev])
  = match deliver E args w sigs with
    | Live w' => Live (step E args w' ev)
    | s => s
    end.
Proof.
  revert w; induction sigs as [|[ev'|e] sigs IH]; intros w; [done| |done].
  cbn [app deliver]. apply IH.
Qed.

Lemma exec_token_without_template E args level evs :
  truthy (Args.accessToken args) = true ->
  Args.template args = None ->
  let w := exec E args level evs in
  export_calls (calls w) = [constructorOptions args ∅ None]
  /\ (forall r, step E args w (CredentialsSettled r) = w)
  /\ (forall e, step E args w (Rl e) = w).
Proof.
  intros Htok Htpl w.
  pose proof (exec_inv E args level evs) as HI. fold w in HI.
  pose proof (export_calls_spec E args level w HI) as He.
  destruct HI as [HP _].
  pose proof (inv_credentials _ _ _ _ HP) as Hcr.
  pose proof (inv_template _ _ _ _ HP) as Ht.
  unfold credentials_ok in Hcr. rewrite Htok in Hcr. destruct Hcr as [Hc _].
  rewrite Hc, (Ht Htpl) in He.
  split; [done|split].
  - intros r. cbn [step]. by rewrite Hc.
  - intros e. cbn [step]. by rewrite Htpl.
Qed.

(** X13: with a truthy access token and no template nothing has to be waited
    for.  In a run that gets past the creation of the log stream the export
    engine is built at start-up, with empty credentials and no field list,
    and [run] is invoked unless the constructor throws; answers of a
    credential exchange and readline events have no addressee then and
    change nothing.  A run that the creation of the log stream ends builds
    nothing. *)
Theorem token_without_template_starts_at_once (E : Env) (args : Args.t)
  (level : jsval) (sigs : list Signal) :
  truthy (Args.accessToken args) = true ->
  Args.template args = None ->
  let s := script E args level sigs in
  match log_stream args with
  | inl e => s = Thrown e /\ script_calls s = []
  | inr _ =>
      script_calls (script E args level [])
      = NewDiscountCodeExport (constructorOptions args ∅ None)
        :: match construct E (constructorOptions args ∅ None) with
           | None => [Run (Args.output args)]
           | Some _ => []
           end
      /\ export_calls (script_calls s) = [constructorOptions args ∅ None]
      /\ (forall r,
            script E args level (sigs ++ [Deliver (CredentialsSettled r)])
            = s)
      /\ (forall e, script E args level (sigs ++ [Deliver (Rl e)]) = s)
  end.
Proof.
  intros Htok Htpl s. subst s.
  destruct (log_stream args) as [e|ls] eqn:Hls.
  { by rewrite (script_thrown _ _ _ _ _ Hls). }
  destruct (exec_token_without_template E args level (delivered sigs)
              Htok Htpl) as (He & Hc & Hr).
  destruct (script_started E args level sigs ls Hls) as [Hw Hcalls].
  split; [|split; [by rewrite Hcalls|]].
  - destruct (script_started E args level [] ls Hls) as [_ ->].
    unfold exec, start, resolveCredentials, getFields_open.
    rewrite Htok, Htpl. cbn.
    by destruct (construct E (constructorOptions args ∅ None)).
  - unfold script in *. rewrite Hls in *.
    split; intros x; rewrite deliver_snoc;
      destruct (deliver E args (start E args level) sigs) as [e|e w|w];
      try done; injection Hw as ->; by rewrite ?Hc, ?Hr.
Qed.

Lemma token_without_template_starts_at_once_witness :
  let args := Sample.args_of Sample.with_token in
  truthy (Args.accessToken args) = true
  /\ Args.template args = None
  /\ script_calls (script Sample.env args (VStr "info") [])
     = [NewDiscountCodeExport (constructorOptions args ∅ None); Run Stdout]
  /\ script Sample.env args (VStr "info")
       ([Deliver (RunSettled None)] ++ [Deliver (Rl (RlLine "id"))])
     = script Sample.env args (VStr "info") [Deliver (RunSettled None)].
Proof.
  intros args. split; [reflexivity|]. split; [reflexivity|].
  destruct (token_without_template_starts_at_once Sample.env args (VStr "info")
              [Deliver (RunSettled None)] eq_refl eq_refl)
    as (H1 & _ & _ & H2).
  split; [exact H1|exact (H2 (RlLine "id"))].
Defined.

(** ** Options left untyped *)

(** X14: when neither an output nor a log file is typed, the data go to
    [process.stdout] and the logs to a write stream on
    [discount-code-export.log], whose creation cannot fail on its path; the
    template, the access token and the [where] predicate have no default,
    so that, left untyped, no reader is opened, the credential exchange is
    invoked with the project key in every run that gets past the creation
    of the log stream (and not at all in a run it ends), and an export
    engine is built without predicate. *)
Theorem untyped_options (E : Env) (given : Supplied) (args : Args.t)
  (level : jsval) (sigs : list Signal) :
  argv E given = inr (args, level) ->
  let s := script E args level sigs in
  (given Key.output = VUndefined -> given Key.logFile = VUndefined ->
     Args.output args = Stdout
     /\ log_stream args
        = inr (FileWriteStream (VStr "discount-code-export.log")))
  /\ (given Key.template = VUndefined ->
        Args.template args = None /\ interface_calls (script_calls s) = [])
  /\ (given Key.accessToken = VUndefined ->
        credential_calls (script_calls s)
        = match log_stream args with
          | inl _ => []
          | inr _ => [given Key.projectKey]
          end)
  /\ (given Key.where_ = VUndefined ->
        forall opts, NewDiscountCodeExport opts ∈ script_calls s ->
                     Options.predicate opts = VUndefined).
Proof.
  intros Hargv s. subst s.
  pose proof (argv_inr _ _ _ _ Hargv)
    as (_ & _ & _ & Hout & _ & _ & Htok & Hkey & _ & _ & Hlog & Htpl).
  pose proof (argv_inr_connection _ _ _ _ Hargv) as (_ & _ & Hw & _).
  split.
  { intros Ho Hl. unfold value in Hout, Hlog. rewrite Ho in Hout.
    rewrite Hl in Hlog. cbn in Hout, Hlog.
    split; [done|]. unfold log_stream. rewrite Hout, Hlog.
    by destruct (decide (Stdout = Stdout)). }
  destruct (log_stream args) as [e|ls] eqn:Hls.
  { rewrite (script_thrown _ _ _ _ _ Hls). cbn [script_calls].
    split; [|split; [done|]].
    - intros Ht. unfold value in Htpl. rewrite Ht in Htpl. by cbn in Htpl.
    - intros _ opts Hin. by apply elem_of_nil in Hin. }
  destruct (script_started E args level sigs ls Hls) as [_ ->].
  pose proof (exec_inv E args level (delivered sigs)) as [HP _].
  pose proof (inv_credentials _ _ _ _ HP) as Hcr.
  split; [|split].
  - intros Ht. unfold value in Htpl. rewrite Ht in Htpl. cbn in Htpl.
    split; [done|].
    destruct (reader_calls_exec E args level (delivered sigs)) as [-> _].
    by rewrite Htpl.
  - intros Ha. unfold credentials_ok in Hcr. rewrite Htok in Hcr.
    unfold value in Hcr. rewrite Ha in Hcr. cbn in Hcr.
    by rewrite Hcr, Hkey, value_projectKey.
  - intros Hg opts Hin.
    destruct (export_call_options _ _ _ _ _ Hin) as (c & f & ->).
    cbn. rewrite Hw. unfold value. by rewrite Hg.
Qed.

Lemma untyped_options_witness :
  let args := Sample.args_of Sample.bare in
  let s := script Sample.env args (VStr "info") [] in
  argv Sample.env Sample.bare = inr (args, VStr "info")
  /\ Sample.bare Key.output = VUndefined
  /\ Sample.bare Key.logFile = VUndefined
  /\ Sample.bare Key.accessToken = VUndefined
  /\ log_stream args
     = inr (FileWriteStream (VStr "discount-code-export.log"))
  /\ credential_calls (script_calls s) = [VStr "shop"].
Proof.
  intros args s.
  assert (Hargv : argv Sample.env Sample.bare = inr (args, VStr "info"))
    by reflexivity.
  split; [exact Hargv|]. split; [reflexivity|]. split; [reflexivity|].
  split; [reflexivity|].
  destruct (untyped_options Sample.env Sample.bare args (VStr "info") [] Hargv)
    as (Hstreams & _ & Hcred & _).
  split; [apply (Hstreams eq_refl eq_refl)|exact (Hcred eq_refl)].
Defined.
